(** * Sistema de gerenciamento de tarefas: the persistence layer

    A shallow embedding of [database.js] (class [Database]), of the helpers
    of [config.js], of the routes of [server.js] and of the password meter
    of [auth.js].

    - A JSON file is modelled by what [JSON.parse] returns for it: a list of
      records, each a finite map from property names to JSON values (the
      order of the properties of a record is not modelled). A file whose
      JSON is not an array of objects is outside the model.
    - A JavaScript value is [undefined], [null], a boolean, a number (an
      integer, an infinity or [NaN]), a string, an array or an object;
      reading a property that an object does not have yields [undefined].
      What is written to a file is the JSON image of the value. Finite
      numbers are the integers between -2^53 and 2^53, which a double
      holds exactly, and the members of an object have distinct names.
    - The outside world of one call (the random id, the clock, whether
      [fs.writeFileSync] succeeds) is passed in as an [env].
    - SHA-256 comes from Node's [crypto]; it is a parameter of the model,
      and so is the number that a string denotes. *)

From Stdlib Require Import ZArith Ascii String List Bool Lia.
From stdpp Require Import gmap strings list fin_maps pretty.

Local Open Scope Z_scope.

(** ** JavaScript values *)

#[local] Unset Elimination Schemes.

(** What a JSON text holds. Strings are sequences of code units (here:
    below 256) and numbers are integers (here: between -2^53 and 2^53);
    the members of an object have distinct names and are listed in the
    order in which [JSON.stringify] writes them. *)
Inductive json : Type :=
  | JNull
  | JBool (b : bool)
  | JNum (n : Z)
  | JStr (s : string)
  | JArr (items : list json)
  | JObj (members : list (string * json)).

(** A number in memory: finite (here: an integer), or one of the three
    numbers that JSON cannot write. [JSON.parse] reads [1e400] in the body
    of a request as [Infinity]. *)
Inductive number : Type :=
  | Fin (n : Z)
  | PosInfinity
  | NegInfinity
  | NaN.

Inductive value : Type :=
  | VUndefined
  | VNull
  | VBool (b : bool)
  | VNum (n : number)
  | VStr (s : string)
  | VArr (items : list value)
  | VObj (members : list (string * value)).

#[local] Set Elimination Schemes.

Abbreviation undefined := VUndefined.
Abbreviation null := VNull.
Abbreviation str s := (VStr s).
Abbreviation boolean b := (VBool b).

Definition number_eq (a b : number) : bool :=
  match a, b with
  | Fin x, Fin y => x =? y
  | PosInfinity, PosInfinity => true
  | NegInfinity, NegInfinity => true
  | _, _ => false
  end.

(** [a === b]. [NaN] is not equal to itself. Two arrays or objects are
    equal only when they are one object, which the two sides of a
    comparison of this program never are: they come from different calls
    of [JSON.parse], or from different properties of one parsed body. *)
Definition strict_eq (a b : value) : bool :=
  match a, b with
  | VUndefined, VUndefined => true
  | VNull, VNull => true
  | VBool x, VBool y => Bool.eqb x y
  | VNum x, VNum y => number_eq x y
  | VStr x, VStr y => String.eqb x y
  | _, _ => false
  end.

(** ToBoolean: [undefined], [null], [false], [0], [NaN] and [''] are
    falsy. *)
Definition truthy (v : value) : bool :=
  match v with
  | VUndefined => false
  | VNull => false
  | VBool b => b
  | VNum (Fin n) => negb (n =? 0)
  | VNum NaN => false
  | VNum _ => true
  | VStr EmptyString => false
  | VStr (String _ _) => true
  | VArr _ => true
  | VObj _ => true
  end.

(** [a || b] *)
Definition js_or (a b : value) : value := if truthy a then a else b.

(** A default parameter [x = d] takes [d] when the argument is [undefined]. *)
Definition default_param (x d : value) : value :=
  match x with VUndefined => d | _ => x end.

(** ** JSON.parse and JSON.stringify *)

(** The value that [JSON.parse] builds. *)
Fixpoint parse_json (j : json) : value :=
  match j with
  | JNull => VNull
  | JBool b => VBool b
  | JNum n => VNum (Fin n)
  | JStr s => VStr s
  | JArr items => VArr (List.map parse_json items)
  | JObj members => VObj (List.map (λ m, (m.1, parse_json m.2)) members)
  end.

(** What [JSON.stringify] writes for a value: nothing for [undefined]
    ([None]: the property is left out, an array element becomes [null]),
    and [null] for a number that is not finite. *)
Fixpoint to_json (v : value) : option json :=
  match v with
  | VUndefined => None
  | VNull => Some JNull
  | VBool b => Some (JBool b)
  | VNum (Fin n) => Some (JNum n)
  | VNum _ => Some JNull
  | VStr s => Some (JStr s)
  | VArr items => Some (JArr (List.map (λ x, default JNull (to_json x)) items))
  | VObj members =>
      Some (JObj (List.flat_map
                    (λ m, match to_json m.2 with
                          | Some j => [(m.1, j)]
                          | None => []
                          end) members))
  end.

(** The value read back from a file into which [v] was written. *)
Definition reread (v : value) : value :=
  match to_json v with
  | Some j => parse_json j
  | None => VUndefined
  end.

(** The primitive values that are read back as they were written:
    [undefined] (a property left out reads as [undefined]), [null],
    booleans, finite numbers and strings. *)
Definition json_stable (v : value) : bool :=
  match v with
  | VUndefined | VNull | VBool _ | VNum (Fin _) | VStr _ => true
  | VNum _ | VArr _ | VObj _ => false
  end.

(** ** Conversions *)

(** [ToString]. The elements of an array are joined by commas, [null] and
    [undefined] giving the empty string. An object read from JSON has no
    method of its own: with a member [toString] it cannot be converted
    ([None]: a TypeError is thrown), without one it gives
    [[object Object]]. *)
Fixpoint to_string (v : value) : option string :=
  match v with
  | VUndefined => Some "undefined"%string
  | VNull => Some "null"%string
  | VBool b => Some (if b then "true" else "false")%string
  | VNum (Fin n) => Some (pretty n)
  | VNum PosInfinity => Some "Infinity"%string
  | VNum NegInfinity => Some "-Infinity"%string
  | VNum NaN => Some "NaN"%string
  | VStr s => Some s
  | VArr items =>
      let element x :=
        match x with
        | VUndefined | VNull => Some EmptyString
        | _ => to_string x
        end in
      String.concat "," <$> mapM element items
  | VObj members =>
      if existsb (λ m : string * value, String.eqb m.1 "toString") members
      then None
      else Some "[object Object]"%string
  end.

(** [x.length] for a value that is neither [undefined] nor [null]: the
    number of code units of a string, the number of elements of an array,
    the member [length] of an object, and [undefined] for a number or a
    boolean. *)
Definition length_of (x : value) : value :=
  match x with
  | VStr s => VNum (Fin (Z.of_nat (String.length s)))
  | VArr items => VNum (Fin (Z.of_nat (length items)))
  | VObj members =>
      match List.find (λ m : string * value, String.eqb m.1 "length") members with
      | Some m => m.2
      | None => VUndefined
      end
  | _ => VUndefined
  end.

(** ** Objects and their JSON image *)

(** An object in memory: own properties, some of which may hold
    [undefined]. A record in a file: JSON values only. *)
Abbreviation object := (gmap string value).
Abbreviation record := (gmap string json).

(** [o.k] *)
Definition get (k : string) (o : object) : value := default VUndefined (o !! k).

(** One element of what [JSON.parse] returns. *)
Definition parse (r : record) : object := parse_json <$> r.

(** [JSON.stringify] of one element: a property holding [undefined] is
    left out. *)
Definition stringify (o : object) : record := omap to_json o.

(** [r.k] for a record read from a file. *)
Definition prop (k : string) (r : record) : value := get k (parse r).

(** [{...a, ...b}]: the properties of [b] win. *)
Definition spread (a b : object) : object := b ∪ a.

(** ** config.js *)

(** The WhiteSpace and LineTerminator code units below 256: TAB, LF, VT,
    FF, CR, SP and NBSP. *)
Definition isWhiteSpace (c : ascii) : bool :=
  let n := N_of_ascii c in
  ((9 <=? n) && (n <=? 13) || (n =? 32) || (n =? 160))%N.

Fixpoint trimStart (s : string) : string :=
  match s with
  | EmptyString => EmptyString
  | String c r => if isWhiteSpace c then trimStart r else s
  end.

Fixpoint trimEnd (s : string) : string :=
  match s with
  | EmptyString => EmptyString
  | String c r =>
      match trimEnd r with
      | EmptyString => if isWhiteSpace c then EmptyString else String c EmptyString
      | r' => String c r'
      end
  end.

(** [s.trim()] *)
Definition trim (s : string) : string := trimEnd (trimStart s).

(** [s.replace(/[<>]/g, '')] *)
Fixpoint strip_angle (s : string) : string :=
  match s with
  | EmptyString => EmptyString
  | String c r =>
      if (Ascii.eqb c "<" || Ascii.eqb c ">")%char
      then strip_angle r
      else String c (strip_angle r)
  end.

Definition sanitizeInput (data : value) : value :=
  match data with
  | VStr s => str (strip_angle (trim s))
  | _ => data
  end.

(** ** The outside world *)

(** The two files of [config.DATA_DIR]. [None] is a file that cannot be
    read or parsed; [Some l] is a file holding the array [l]. *)
Record disk : Type := Disk {
  USERS_FILE : option (list record);
  TASKS_FILE : option (list record)
}.

(** What one call of an operation draws from outside: the result of
    [generateId()], of the first and second [new Date().toISOString()],
    and whether [fs.writeFileSync] returns rather than throws. *)
Record env : Type := Env {
  generateId : string;
  date1 : string;
  date2 : string;
  write_ok : bool
}.

(** [{ success: true, ... }] or [{ success: false, message }]. *)
Inductive result (A : Type) : Type :=
  | Success (payload : A)
  | Failure (message : string).
Arguments Success {A} payload.
Arguments Failure {A} message.

Definition succeeded {A} (r : result A) : bool :=
  match r with Success _ => true | Failure _ => false end.

(** The failures of the specification, by the message the code returns. *)
Definition Conflict : string := "Usuário ou email já existe".
Definition Unauthorized : string := "Usuário ou senha incorretos".
Definition NotFound : string := "Tarefa não encontrada".
Definition ValidationError : string := "O título da tarefa é obrigatório.".

(** [Array.prototype.findIndex]; [None] stands for [-1]. *)
Fixpoint findIndex {A} (p : A → bool) (l : list A) : option nat :=
  match l with
  | [] => None
  | x :: l' => if p x then Some 0%nat else S <$> findIndex p l'
  end.


(** ** database.js *)

Section Database.

(** [crypto.createHash('sha256').update(s).digest('hex')] *)
Variable sha256_hex : string → string.

(** [StringToNumber]: the number that a string denotes. *)
Variable StringToNumber : string → number.

Definition hashPassword (password : string) : string := sha256_hex password.

Definition verifyPassword (password : string) (hash : value) : bool :=
  let passwordHash := sha256_hex password in
  strict_eq (str passwordHash) hash.

(** *** Users *)

Definition getUsers (d : disk) : list object :=
  match USERS_FILE d with
  | Some data => parse <$> data
  | None => []
  end.

(** A write that fails leaves the file as it was. *)
Definition saveUsers (e : env) (users : list object) (d : disk) : bool * disk :=
  if write_ok e
  then (true, {| USERS_FILE := Some (stringify <$> users); TASKS_FILE := TASKS_FILE d |})
  else (false, d).

Definition createUser (e : env) (username email : value) (password : string)
    (d : disk) : result string * disk :=
  let users := getUsers d in
  let existingUser :=
    List.find (λ user, strict_eq (get "username" user) username
                       || strict_eq (get "email" user) email) users in
  match existingUser with
  | Some _ => (Failure Conflict, d)
  | None =>
      let newUser : object :=
        {[ "id" := str (generateId e);
           "username" := username;
           "email" := email;
           "password" := str (hashPassword password);
           "createdAt" := str (date1 e) ]} in
      let users := users ++ [newUser] in
      let '(saved, d') := saveUsers e users d in
      if saved then (Success (generateId e), d')
      else (Failure "Erro ao criar usuário", d')
  end.

(** The redacted view [{ id, username, email }]. *)
Definition user_view (user : object) : object :=
  {[ "id" := get "id" user;
     "username" := get "username" user;
     "email" := get "email" user ]}.

Definition authenticateUser (username : value) (password : string) (d : disk)
    : result object :=
  let users := getUsers d in
  let user :=
    List.find (λ user, (strict_eq (get "username" user) username
                        || strict_eq (get "email" user) username)
                       && verifyPassword password (get "password" user)) users in
  match user with
  | Some user => Success (user_view user)
  | None => Failure Unauthorized
  end.

Definition getUserById (userId : value) (d : disk) : option object :=
  let users := getUsers d in
  match List.find (λ user, strict_eq (get "id" user) userId) users with
  | Some user => Some (user_view user)
  | None => None
  end.

(** *** Tasks *)

Definition getTasks (userId : value) (d : disk) : list object :=
  let userId := default_param userId null in
  match TASKS_FILE d with
  | Some data =>
      let allTasks := parse <$> data in
      if truthy userId
      then List.filter (λ task, strict_eq (get "userId" task) userId) allTasks
      else allTasks
  | None => []
  end.

Definition saveTasks (e : env) (tasks : list object) (d : disk) : bool * disk :=
  if write_ok e
  then (true, {| USERS_FILE := USERS_FILE d; TASKS_FILE := Some (stringify <$> tasks) |})
  else (false, d).

Definition createTask (e : env) (userId title description priority : value)
    (d : disk) : result string * disk :=
  let description := default_param description (str "") in
  let priority := default_param priority (str "medium") in
  let tasks := getTasks undefined d in
  let newTask : object :=
    {[ "id" := str (generateId e);
       "userId" := userId;
       "title" := title;
       "description" := description;
       "priority" := priority;
       "completed" := boolean false;
       "createdAt" := str (date1 e);
       "updatedAt" := str (date2 e) ]} in
  let tasks := tasks ++ [newTask] in
  let '(saved, d') := saveTasks e tasks d in
  if saved then (Success (generateId e), d')
  else (Failure "Erro ao criar tarefa", d').

(** The test of [findIndex] in the three operations below. *)
Definition owned_by (taskId userId : value) (task : object) : bool :=
  strict_eq (get "id" task) taskId && strict_eq (get "userId" task) userId.

(** [tasks[taskIndex]] exists whenever [findIndex] returns [taskIndex]; the
    [None] branches of the lookups below are never taken. *)
Definition updateTask (e : env) (taskId userId : value) (data : object)
    (d : disk) : result unit * disk :=
  let tasks := getTasks undefined d in
  match findIndex (owned_by taskId userId) tasks with
  | None => (Failure NotFound, d)
  | Some taskIndex =>
      let tasks :=
        match tasks !! taskIndex with
        | Some task =>
            <[taskIndex := <["updatedAt" := str (date1 e)]> (spread task data)]> tasks
        | None => tasks
        end in
      let '(saved, d') := saveTasks e tasks d in
      if saved then (Success (), d')
      else (Failure "Erro ao atualizar tarefa", d')
  end.

Definition deleteTask (e : env) (taskId userId : value) (d : disk)
    : result unit * disk :=
  let tasks := getTasks undefined d in
  match findIndex (owned_by taskId userId) tasks with
  | None => (Failure NotFound, d)
  | Some taskIndex =>
      let tasks := delete taskIndex tasks in
      let '(saved, d') := saveTasks e tasks d in
      if saved then (Success (), d')
      else (Failure "Erro ao excluir tarefa", d')
  end.

Definition toggleTaskCompletion (e : env) (taskId userId : value) (d : disk)
    : result bool * disk :=
  let tasks := getTasks undefined d in
  match findIndex (owned_by taskId userId) tasks with
  | None => (Failure NotFound, d)
  | Some taskIndex =>
      match tasks !! taskIndex with
      | Some task =>
          let completed := negb (truthy (get "completed" task)) in
          let task := <["completed" := boolean completed]> task in
          let task := <["updatedAt" := str (date1 e)]> task in
          let tasks := <[taskIndex := task]> tasks in
          let '(saved, d') := saveTasks e tasks d in
          if saved then (Success completed, d')
          else (Failure "Erro ao atualizar tarefa", d')
      | None => (Failure NotFound, d)
      end
  end.

Record priority_counts : Type := {
  high : Z;
  medium : Z;
  low : Z
}.

Record stats : Type := {
  total : Z;
  completed : Z;
  pending : Z;
  byPriority : priority_counts
}.

(** [a.length] *)
Definition len {A} (a : list A) : Z := Z.of_nat (length a).

Definition getTaskStats (userId : value) (d : disk) : stats :=
  let tasks := getTasks userId d in
  let total := len tasks in
  let completed := len (List.filter (λ task, truthy (get "completed" task)) tasks) in
  let pending := total - completed in
  let count p :=
    len (List.filter (λ task, negb (truthy (get "completed" task))
                              && strict_eq (get "priority" task) (str p)) tasks) in
  {| total := total;
     completed := completed;
     pending := pending;
     byPriority := {| high := count "high"; medium := count "medium"; low := count "low" |} |}.

(** ** server.js: POST /api/tasks, behind [requireAuth] *)

(** [requireAuth] lets the request through when [req.session.userId] is
    truthy and answers 401 otherwise; the handler answers with
    [{ success, message }]. *)
Definition post_api_tasks (e : env) (session_userId : value) (body : object)
    (d : disk) : result string * disk :=
  if negb (truthy session_userId) then (Failure "Não autorizado", d)
  else
    let title := get "title" body in
    let description := get "description" body in
    let priority := get "priority" body in
    let userId := session_userId in
    if negb (truthy title) then (Failure ValidationError, d)
    else
      let '(result, d') :=
        createTask e userId
          (sanitizeInput title)
          (sanitizeInput (js_or description (str "")))
          (sanitizeInput (js_or priority (str "medium"))) d in
      match result with
      | Success _ => (Success "Tarefa criada com sucesso!", d')
      | Failure message => (Failure message, d')
      end.


(** ** server.js: the other task routes, behind [requireAuth] *)

(** PUT /api/tasks/:id. The patch always has the three properties
    [title], [description] and [priority], some of which may hold
    [undefined]. *)
Definition put_api_tasks (e : env) (session_userId : value) (id : string)
    (body : object) (d : disk) : result string * disk :=
  if negb (truthy session_userId) then (Failure "Não autorizado", d)
  else
    let taskId := str id in
    let userId := session_userId in
    let title := get "title" body in
    let description := get "description" body in
    let priority := get "priority" body in
    let data : object :=
      {[ "title" := sanitizeInput title;
         "description" := sanitizeInput (js_or description (str ""));
         "priority" := sanitizeInput priority ]} in
    let '(result, d') := updateTask e taskId userId data d in
    match result with
    | Success _ => (Success "Tarefa atualizada com sucesso!", d')
    | Failure message => (Failure message, d')
    end.

(** DELETE /api/tasks/:id *)
Definition delete_api_tasks (e : env) (session_userId : value) (id : string)
    (d : disk) : result string * disk :=
  if negb (truthy session_userId) then (Failure "Não autorizado", d)
  else
    let taskId := str id in
    let userId := session_userId in
    let '(result, d') := deleteTask e taskId userId d in
    match result with
    | Success _ => (Success "Tarefa excluída com sucesso!", d')
    | Failure message => (Failure message, d')
    end.

(** PATCH /api/tasks/:id/toggle; a success carries the message and the
    new [completed]. *)
Definition patch_api_tasks_toggle (e : env) (session_userId : value) (id : string)
    (d : disk) : result (string * bool) * disk :=
  if negb (truthy session_userId) then (Failure "Não autorizado", d)
  else
    let taskId := str id in
    let userId := session_userId in
    let '(result, d') := toggleTaskCompletion e taskId userId d in
    match result with
    | Success completed =>
        let message := if completed then "Tarefa marcada como concluída!"
                       else "Tarefa marcada como pendente!" in
        (Success (message, completed), d')
    | Failure message => (Failure message, d')
    end.

(** GET /api/dashboard-data: the [switch] on [req.query.filter] that
    selects [filteredTasks], before the sort. *)
Definition filteredTasks (query_filter : value) (tasks : list object) : list object :=
  let filter := js_or query_filter (str "all") in
  if strict_eq filter (str "pending")
  then List.filter (λ task, negb (truthy (get "completed" task))) tasks
  else if strict_eq filter (str "completed")
  then List.filter (λ task, truthy (get "completed" task)) tasks
  else if strict_eq filter (str "high") || strict_eq filter (str "medium")
          || strict_eq filter (str "low")
  then List.filter (λ task, strict_eq (get "priority" task) filter
                            && negb (truthy (get "completed" task))) tasks
  else tasks.

(** ** config.js: validateEmail *)

(** Regular expressions over code units, matched by derivatives. *)
Inductive regex : Type :=
  | Void
  | Eps
  | Class (p : ascii → bool)
  | Seq (r1 r2 : regex)
  | Alt (r1 r2 : regex)
  | Star (r : regex).

(** [r+] *)
Definition Plus (r : regex) : regex := Seq r (Star r).

Fixpoint nullable (r : regex) : bool :=
  match r with
  | Void => false
  | Eps => true
  | Class _ => false
  | Seq r1 r2 => nullable r1 && nullable r2
  | Alt r1 r2 => nullable r1 || nullable r2
  | Star _ => true
  end.

Fixpoint derive (c : ascii) (r : regex) : regex :=
  match r with
  | Void => Void
  | Eps => Void
  | Class p => if p c then Eps else Void
  | Seq r1 r2 =>
      if nullable r1 then Alt (Seq (derive c r1) r2) (derive c r2)
      else Seq (derive c r1) r2
  | Alt r1 r2 => Alt (derive c r1) (derive c r2)
  | Star r1 => Seq (derive c r1) (Star r1)
  end.

(** [/^r$/.test(s)] *)
Fixpoint regex_test (r : regex) (s : string) : bool :=
  match s with
  | EmptyString => nullable r
  | String c s' => regex_test (derive c r) s'
  end.

(** [[^\s@]]: the class of [\s] below 256 is that of [isWhiteSpace]. *)
Definition not_space_or_at (c : ascii) : bool :=
  negb (isWhiteSpace c || Ascii.eqb c "@").

(** [/^[^\s@]+@[^\s@]+\.[^\s@]+$/] *)
Definition emailRegex : regex :=
  Seq (Plus (Class not_space_or_at))
    (Seq (Class (Ascii.eqb "@"))
       (Seq (Plus (Class not_space_or_at))
          (Seq (Class (Ascii.eqb "."))
             (Plus (Class not_space_or_at))))).

(** [validateEmail] on a string. *)
Definition validateEmail (email : string) : bool := regex_test emailRegex email.

(** ** auth.js: calculatePasswordStrength *)

(** [/[...]/.test(s)] for a character class: some code unit of [s] is in
    the class. *)
Fixpoint test_class (p : ascii → bool) (s : string) : bool :=
  match s with
  | EmptyString => false
  | String c s' => p c || test_class p s'
  end.

Definition in_range (lo hi : N) (c : ascii) : bool :=
  ((lo <=? N_of_ascii c) && (N_of_ascii c <=? hi))%N.

(** [[a-z]], [[A-Z]], [[0-9]] and [[^A-Za-z0-9]] *)
Definition lower_case : ascii → bool := in_range 97 122.
Definition upper_case : ascii → bool := in_range 65 90.
Definition digit : ascii → bool := in_range 48 57.
Definition not_alphanumeric (c : ascii) : bool :=
  negb (upper_case c || lower_case c || digit c).

Definition strengths : list (string * string) :=
  [ ("Muito fraca", "#f56565");
    ("Fraca", "#ed8936");
    ("Regular", "#ecc94b");
    ("Boa", "#48bb78");
    ("Forte", "#38a169");
    ("Muito forte", "#22543d") ].

Definition password_score (password : string) : nat :=
  ((if 8 <=? String.length password then 1 else 0)
   + (if test_class lower_case password then 1 else 0)
   + (if test_class upper_case password then 1 else 0)
   + (if test_class digit password then 1 else 0)
   + (if test_class not_alphanumeric password then 1 else 0))%nat.

(** The result is the pair of [text] and [color]. *)
Definition calculatePasswordStrength (password : string) : string * string :=
  let score := password_score password in
  if (String.length password =? 0)%nat then ("", "")
  else
    match strengths !! score with
    | Some strength => strength
    | None => ("Muito fraca", "#f56565")
    end.

(** ** server.js: the authentication routes *)

(** What a handler answers: the JSON [{ success, ... }], or the error page
    of Express when the handler throws. *)
Inductive response : Type :=
  | Json (body : result string)
  | InternalError.

(** [ToNumber], through [ToPrimitive] for an array or an object. *)
Definition to_number (v : value) : option number :=
  match v with
  | VUndefined => Some NaN
  | VNull => Some (Fin 0)
  | VBool b => Some (Fin (if b then 1 else 0))
  | VNum n => Some n
  | VStr s => Some (StringToNumber s)
  | VArr _ | VObj _ => StringToNumber <$> to_string v
  end.

(** [x < n] for an integer [n]; [NaN < n] is false. *)
Definition less_than (x : value) (n : Z) : option bool :=
  match to_number x with
  | Some (Fin m) => Some (m <? n)
  | Some NegInfinity => Some true
  | Some PosInfinity | Some NaN => Some false
  | None => None
  end.

(** POST /auth/register. [emailRegex.test] turns its argument into a
    string; the test of [password.length] is written twice in the source
    and the second never fires; [hashPassword] throws on a password that is
    not a string, and [createUser] calls it after the search for an
    existing user. *)
Definition post_auth_register (e : env) (body : object) (d : disk)
    : response * disk :=
  let username := get "username" body in
  let email := get "email" body in
  let password := get "password" body in
  let confirmPassword := get "confirmPassword" body in
  if negb (truthy username) || negb (truthy email) || negb (truthy password)
     || negb (truthy confirmPassword)
  then (Json (Failure "Por favor, preencha todos os campos."), d)
  else
    match to_string email with
    | None => (InternalError, d)
    | Some email_string =>
        if negb (validateEmail email_string)
        then (Json (Failure "Email inválido."), d)
        else
          match less_than (length_of password) 6 with
          | None => (InternalError, d)
          | Some true => (Json (Failure "A senha deve ter pelo menos 6 caracteres."), d)
          | Some false =>
              if negb (strict_eq password confirmPassword)
              then (Json (Failure "As senhas não coincidem."), d)
              else
                match password with
                | VStr password =>
                    let '(result, d') :=
                      createUser e (sanitizeInput username) (sanitizeInput email)
                        password d in
                    match result with
                    | Success _ =>
                        (Json (Success
                                 "Usuário criado com sucesso! Faça login para continuar."),
                         d')
                    | Failure message => (Json (Failure message), d')
                    end
                | _ =>
                    let existingUser :=
                      List.find
                        (λ user, strict_eq (get "username" user) (sanitizeInput username)
                                 || strict_eq (get "email" user) (sanitizeInput email))
                        (getUsers d) in
                    match existingUser with
                    | Some _ => (Json (Failure Conflict), d)
                    | None => (InternalError, d)
                    end
                end
          end
    end.

(** POST /auth/login. The second component is what the handler assigns to
    [req.session.userId] and [req.session.username], if it does;
    [session_saved] tells whether [req.session.save] reports no error.
    [verifyPassword] throws on a password that is not a string, and is
    called for the first user whose username or email is the identifier. *)
Definition post_auth_login (session_saved : bool) (body : object) (d : disk)
    : response * option (value * value) :=
  let username := get "username" body in
  let password := get "password" body in
  if negb (truthy username) || negb (truthy password)
  then (Json (Failure "Por favor, preencha todos os campos."), None)
  else
    match password with
    | VStr password =>
        match authenticateUser (sanitizeInput username) password d with
        | Success user =>
            let session := Some (get "id" user, get "username" user) in
            if session_saved then (Json (Success "/dashboard"), session)
            else (Json (Failure "Erro ao salvar sessão"), session)
        | Failure message => (Json (Failure message), None)
        end
    | _ =>
        if existsb (λ user, strict_eq (get "username" user) (sanitizeInput username)
                            || strict_eq (get "email" user) (sanitizeInput username))
             (getUsers d)
        then (InternalError, None)
        else (Json (Failure Unauthorized), None)
    end.

(** ** database.js: init *)

(** A file of the data directory: missing, present but not JSON, or
    holding an array. *)
Inductive file : Type :=
  | Absent
  | Unparsable
  | Holds (data : list record).

(** [fs.existsSync] *)
Definition existsSync (f : file) : bool :=
  match f with Absent => false | Unparsable | Holds _ => true end.

Record filesystem : Type := {
  data_dir : bool;
  users_json : file;
  tasks_json : file
}.

(** What the operations of [Database] read from a file system. *)
Definition readable (f : file) : option (list record) :=
  match f with Holds data => Some data | Absent | Unparsable => None end.

Definition mount (fs : filesystem) : disk :=
  {| USERS_FILE := readable (users_json fs); TASKS_FILE := readable (tasks_json fs) |}.

(** [init] has no [try]: when [mkdirSync] or [writeFileSync] throws, so
    does [init] ([None]). [writable] tells whether they succeed. *)
Definition init (writable : bool) (fs : filesystem) : option filesystem :=
  fs ← (if negb (data_dir fs)
        then if writable
             then Some {| data_dir := true; users_json := users_json fs;
                          tasks_json := tasks_json fs |}
             else None
        else Some fs);
  fs ← (if negb (existsSync (users_json fs))
        then if writable
             then Some {| data_dir := data_dir fs; users_json := Holds [];
                          tasks_json := tasks_json fs |}
             else None
        else Some fs);
  if negb (existsSync (tasks_json fs))
  then if writable
       then Some {| data_dir := data_dir fs; users_json := users_json fs;
                    tasks_json := Holds [] |}
       else None
  else Some fs.

(** ** Notions used by the statements *)

(** The records of a file, an unreadable file counting as empty. *)
Definition read_tasks (d : disk) : list record := default [] (TASKS_FILE d).
Definition read_users (d : disk) : list record := default [] (USERS_FILE d).

(** Task ids are unique in a collection. *)
Definition unique_ids (tasks : list record) : Prop :=
  NoDup (prop "id" <$> tasks).

(** No two user records share a username, and no two share an email. *)
Definition users_unique (users : list record) : Prop :=
  NoDup (prop "username" <$> users) ∧ NoDup (prop "email" <$> users).

(** The states reached from an empty (or unreadable) user file by calls
    of [createUser], whatever they return, whose username and email are
    values that are read back as written (strings, in particular). *)
Inductive reachable : disk → Prop :=
  | reachable_init (d : disk) :
      read_users d = [] → reachable d
  | reachable_createUser (e : env) (username email : value) (password : string)
        (d : disk) :
      json_stable username = true → json_stable email = true →
      reachable d → reachable (createUser e username email password d).2.

(** The user record that [createUser] appends, as it is written. *)
Definition new_user_record (e : env) (username email : value) (password : string)
    : record :=
  stringify {[ "id" := str (generateId e);
               "username" := username;
               "email" := email;
               "password" := str (sha256_hex password);
               "createdAt" := str (date1 e) ]}.

(** [identifier] and [password] are the credentials of the user record [u]. *)
Definition credentials_of (identifier : value) (password : string) (u : record) : Prop :=
  (strict_eq (prop "username" u) identifier = true
   ∨ strict_eq (prop "email" u) identifier = true)
  ∧ prop "password" u = str (sha256_hex password).

(** The number of tasks of [userId] in the collection that are not
    completed and have priority [p]. *)
Definition incomplete_with_priority (userId : value) (p : string)
    (tasks : list record) : Z :=
  len (List.filter (λ t : record, strict_eq (prop "userId" t) userId
                                  && negb (truthy (prop "completed" t))
                                  && strict_eq (prop "priority" t) (str p)) tasks).

(** The disk with an unreadable file replaced by an empty collection. *)
Definition as_empty (d : disk) : disk :=
  {| USERS_FILE := Some (read_users d); TASKS_FILE := Some (read_tasks d) |}.

(** The record that [updateTask] writes in place of [old]. *)
Definition updated_record (e : env) (data : object) (old : record) : record :=
  stringify (<["updatedAt" := str (date1 e)]> (spread (parse old) data)).

(** The record that [toggleTaskCompletion] writes in place of [old]. *)
Definition toggled_record (e : env) (old : record) : record :=
  stringify (<["updatedAt" := str (date1 e)]>
               (<["completed" := boolean (negb (truthy (prop "completed" old)))]>
                  (parse old))).

(** The record has the id [taskId] and the owner [userId]:
    [t.id === taskId && t.userId === userId]. *)
Definition has_ids (taskId userId : value) (t : record) : Prop :=
  strict_eq (prop "id" t) taskId = true ∧ strict_eq (prop "userId" t) userId = true.

(** [i] is the first position of [tasks] whose record has the id [taskId]
    and the owner [userId]. *)
Definition first_match (taskId userId : value) (tasks : list record) (i : nat)
    (old : record) : Prop :=
  tasks !! i = Some old
  ∧ has_ids taskId userId old
  ∧ ∀ j t, (j < i)%nat → tasks !! j = Some t → ¬ has_ids taskId userId t.

(** No record of [tasks] has the id [taskId] and the owner [userId]. *)
Definition no_match (taskId userId : value) (tasks : list record) : Prop :=
  ∀ t, t ∈ tasks → ¬ has_ids taskId userId t.

(** The records of a collection that [userId] does not own, in order. *)
Definition others (userId : value) (tasks : list record) : list record :=
  List.filter (λ t : record, negb (strict_eq (prop "userId" t) userId)) tasks.

(** [tasks'] is [tasks] with the record at position [i] replaced: same
    length, every other position as it was. *)
Definition replaced_at (i : nat) (new : record) (tasks tasks' : list record) : Prop :=
  tasks' = <[i := new]> tasks
  ∧ length tasks' = length tasks
  ∧ ∀ j, j ≠ i → tasks' !! j = tasks !! j.

(** [tasks'] is [tasks] without the record at position [i], the records
    before and after it kept in order. *)
Definition removed_at (i : nat) (tasks tasks' : list record) : Prop :=
  tasks' = take i tasks ++ drop (S i) tasks.

(** One call of a task mutation, and the disk after a sequence of calls. *)
Inductive call : Type :=
  | CreateTask (e : env) (userId title description priority : value)
  | UpdateTask (e : env) (taskId userId : value) (data : object)
  | DeleteTask (e : env) (taskId userId : value)
  | ToggleTaskCompletion (e : env) (taskId userId : value).

Definition run_call (d : disk) (c : call) : disk :=
  match c with
  | CreateTask e userId title description priority =>
      (createTask e userId title description priority d).2
  | UpdateTask e taskId userId data => (updateTask e taskId userId data d).2
  | DeleteTask e taskId userId => (deleteTask e taskId userId d).2
  | ToggleTaskCompletion e taskId userId => (toggleTaskCompletion e taskId userId d).2
  end.

Definition run (calls : list call) (d : disk) : disk := fold_left run_call calls d.

(** One of ['low'], ['medium'], ['high']. *)
Definition valid_priority (v : value) : Prop :=
  v = str "low" ∨ v = str "medium" ∨ v = str "high".

Definition priorities_valid (tasks : list record) : Prop :=
  Forall (λ t : record, valid_priority (prop "priority" t)) tasks.

(** The call passes no priority, or a valid one: the priority argument of
    [createTask] is [undefined] or valid, the patch of [updateTask] has no
    [priority] property or a valid one. *)
Definition passes_valid_priority (c : call) : Prop :=
  match c with
  | CreateTask _ _ _ _ priority => priority = undefined ∨ valid_priority priority
  | UpdateTask _ _ _ data =>
      data !! "priority" = None
      ∨ ∃ p, data !! "priority" = Some p ∧ valid_priority p
  | DeleteTask _ _ _ | ToggleTaskCompletion _ _ _ => True
  end.

(** The property [k] of the record stored at position [i] of the task file. *)
Definition stored (d : disk) (i : nat) (k : string) : value :=
  match read_tasks d !! i with
  | Some t => prop k t
  | None => undefined
  end.

(** ** Sample data for the examples *)

(** Both files hold the empty array, as after [Database.init()]. *)
Definition fresh_disk : disk := {| USERS_FILE := Some []; TASKS_FILE := Some [] |}.

(** Neither file can be read. *)
Definition unreadable_disk : disk := {| USERS_FILE := None; TASKS_FILE := None |}.

Definition sample_env (id : string) (ok : bool) : env :=
  {| generateId := id;
     date1 := "2024-05-01T10:00:00.000Z";
     date2 := "2024-05-01T10:00:00.001Z";
     write_ok := ok |}.

(** A task of alice, high priority, not completed. *)
Definition task_alice : record :=
  {[ "id" := JStr "t1"; "userId" := JStr "alice"; "title" := JStr "Buy milk";
     "description" := JStr ""; "priority" := JStr "high";
     "completed" := JBool false;
     "createdAt" := JStr "2024-04-30T08:00:00.000Z";
     "updatedAt" := JStr "2024-04-30T08:00:00.000Z" ]}.

Definition disk_alice : disk :=
  {| USERS_FILE := Some []; TASKS_FILE := Some [task_alice] |}.

(** A stand-in for SHA-256 in the examples; the theorems hold for every
    digest function. *)
Definition sample_digest (s : string) : string := String "#" s.

(** A stand-in for the number that a string denotes. *)
Definition sample_number (s : string) : number := NaN.

(** The task record that [createTask] appends, as it is written. *)
Definition new_task_record (e : env) (userId title description priority : value)
    : record :=
  stringify {[ "id" := str (generateId e);
               "userId" := userId;
               "title" := title;
               "description" := default_param description (str "");
               "priority" := default_param priority (str "medium");
               "completed" := boolean false;
               "createdAt" := str (date1 e);
               "updatedAt" := str (date2 e) ]}.

(** No stored user has the id [id]; no stored task has the id [id]. *)
Definition fresh_user_id (id : string) (d : disk) : Prop :=
  ∀ u, u ∈ read_users d → prop "id" u ≠ str id.
Definition fresh_task_id (id : string) (d : disk) : Prop :=
  ∀ t, t ∈ read_tasks d → prop "id" t ≠ str id.

(** The code units of a string. *)
Definition chars (s : string) : list ascii := list_ascii_of_string s.

(** The string has neither [<] nor [>]. *)
Definition angle_free (s : string) : Prop :=
  Forall (λ c : ascii, c ≠ "<"%char ∧ c ≠ ">"%char) (chars s).

(** The string neither starts nor ends with white space. *)
Definition no_outer_space (s : string) : Prop :=
  (∀ c, head (chars s) = Some c → isWhiteSpace c = false)
  ∧ (∀ c, last (chars s) = Some c → isWhiteSpace c = false).

(** The value, when it is a string, has neither [<] nor [>]. *)
Definition angle_free_value (v : value) : Prop :=
  ∀ s, v = str s → angle_free s.

(** The language of a regular expression. *)
Inductive matches : regex → list ascii → Prop :=
  | matches_eps : matches Eps []
  | matches_class (p : ascii → bool) (c : ascii) :
      p c = true → matches (Class p) [c]
  | matches_seq (r1 r2 : regex) (s1 s2 : list ascii) :
      matches r1 s1 → matches r2 s2 → matches (Seq r1 r2) (s1 ++ s2)
  | matches_alt_l (r1 r2 : regex) (s : list ascii) :
      matches r1 s → matches (Alt r1 r2) s
  | matches_alt_r (r1 r2 : regex) (s : list ascii) :
      matches r2 s → matches (Alt r1 r2) s
  | matches_star_nil (r : regex) : matches (Star r) []
  | matches_star_app (r : regex) (s1 s2 : list ascii) :
      matches r s1 → matches (Star r) s2 → matches (Star r) (s1 ++ s2).

(** A non-empty run of code units that are neither white space nor [@]. *)
Definition email_part (s : list ascii) : Prop :=
  s ≠ [] ∧ Forall (λ c : ascii, isWhiteSpace c = false ∧ c ≠ "@"%char) s.

(** ** Basic facts about the embedding *)

Lemma number_eq_true (a b : number) : number_eq a b = true → a = b.
Proof.
  destruct a, b; simpl; try done. intros H. apply Z.eqb_eq in H. by subst.
Qed.

(** [===] holds of equal values only. *)
Lemma strict_eq_true (a b : value) : strict_eq a b = true → a = b.
Proof.
  destruct a, b; simpl; try done.
  - intros H. apply Bool.eqb_prop in H. by subst.
  - intros H. apply number_eq_true in H. by subst.
  - intros H. apply String.eqb_eq in H. by subst.
Qed.

Lemma strict_eq_ne (a b : value) : a ≠ b → strict_eq a b = false.
Proof.
  intros Hne. destruct (strict_eq a b) eqn:H; [| done].
  by apply strict_eq_true in H.
Qed.

(** A value that is read back as written is [===] to itself. *)
Lemma strict_eq_stable (a : value) : json_stable a = true → strict_eq a a = true.
Proof.
  destruct a as [| |b|[n| | |]|s| |]; simpl; try done; intros _.
  - by destruct b.
  - apply Z.eqb_refl.
  - apply String.eqb_refl.
Qed.

Lemma strict_eq_str (a : value) (s : string) :
  strict_eq a (str s) = true ↔ a = str s.
Proof.
  split; [apply strict_eq_true |]. intros ->. simpl. apply String.eqb_refl.
Qed.

Lemma strict_eq_str_l (a : value) (s : string) :
  strict_eq (str s) a = true ↔ a = str s.
Proof.
  split.
  - intros H. by apply strict_eq_true in H.
  - intros ->. simpl. apply String.eqb_refl.
Qed.

Lemma to_json_parse_json : ∀ j : json, to_json (parse_json j) = Some j.
Proof.
  fix IH 1. intros [| b | n | s | items | members]; simpl; try done.
  - do 2 f_equal. induction items as [|x items IHitems]; simpl; [done |].
    by rewrite IH, IHitems.
  - do 2 f_equal. induction members as [|[k x] members IHmembers]; simpl; [done |].
    by rewrite IH, IHmembers.
Qed.

Lemma reread_parse_json (j : json) : reread (parse_json j) = parse_json j.
Proof. unfold reread. by rewrite to_json_parse_json. Qed.

Lemma reread_stable (v : value) : json_stable v = true → reread v = v.
Proof. by destruct v as [| |b|[n| | |]|s| |]. Qed.

Lemma prop_lookup (k : string) (r : record) :
  prop k r = match r !! k with Some j => parse_json j | None => undefined end.
Proof. unfold prop, get, parse. rewrite lookup_fmap. by destruct (r !! k). Qed.

Lemma get_parse (k : string) (r : record) : get k (parse r) = prop k r.
Proof. done. Qed.

Lemma to_json_prop (k : string) (r : record) : to_json (prop k r) = r !! k.
Proof.
  rewrite prop_lookup. destruct (r !! k); [apply to_json_parse_json | done].
Qed.

Lemma lookup_stringify (k : string) (o : object) : stringify o !! k = to_json (get k o).
Proof. unfold stringify, get. rewrite lookup_omap. by destruct (o !! k). Qed.

Lemma prop_stringify (k : string) (o : object) :
  prop k (stringify o) = reread (get k o).
Proof. rewrite prop_lookup, lookup_stringify. done. Qed.

Lemma stringify_parse (r : record) : stringify (parse r) = r.
Proof. apply map_eq. intros k. by rewrite lookup_stringify, get_parse, to_json_prop. Qed.

Lemma stringify_parse_list (l : list record) : stringify <$> (parse <$> l) = l.
Proof.
  rewrite <- list_fmap_compose. rewrite <- (list_fmap_id l) at 2.
  apply list_fmap_ext. intros _ r _. apply stringify_parse.
Qed.

Lemma get_insert_eq (k : string) (v : value) (o : object) : get k (<[k := v]> o) = v.
Proof. unfold get. by rewrite lookup_insert_eq. Qed.

Lemma get_insert_ne (k k' : string) (v : value) (o : object) :
  k ≠ k' → get k' (<[k := v]> o) = get k' o.
Proof. intros. unfold get. by rewrite lookup_insert_ne. Qed.

Lemma get_spread_absent (k : string) (a b : object) :
  b !! k = None → get k (spread a b) = get k a.
Proof. intros Hb. unfold get, spread. by rewrite lookup_union_r. Qed.

Lemma get_spread_present (k : string) (a b : object) (v : value) :
  b !! k = Some v → get k (spread a b) = v.
Proof.
  intros Hb. unfold get, spread. by erewrite lookup_union_Some_l.
Qed.

Lemma getTasks_all (d : disk) : getTasks undefined d = parse <$> read_tasks d.
Proof. unfold getTasks, read_tasks. by destruct (TASKS_FILE d). Qed.

Lemma getUsers_read (d : disk) : getUsers d = parse <$> read_users d.
Proof. unfold getUsers, read_users. by destruct (USERS_FILE d). Qed.

Lemma findIndex_None {A} (p : A → bool) (l : list A) :
  findIndex p l = None ↔ ∀ x, x ∈ l → p x = false.
Proof.
  induction l as [|y l IH]; simpl.
  - split; [intros _ x Hx; inversion Hx | done].
  - destruct (p y) eqn:Hy.
    + split; [done |]. intros H. specialize (H y (list_elem_of_here _ _)). congruence.
    + rewrite fmap_None, IH. split.
      * intros H x Hx. apply elem_of_cons in Hx as [-> | Hx]; auto.
      * intros H x Hx. apply H. by apply list_elem_of_further.
Qed.

Lemma findIndex_Some {A} (p : A → bool) (l : list A) (i : nat) :
  findIndex p l = Some i →
  ∃ x, l !! i = Some x ∧ p x = true
       ∧ ∀ j y, (j < i)%nat → l !! j = Some y → p y = false.
Proof.
  revert i. induction l as [|y l IH]; intros i; simpl; [done |].
  destruct (p y) eqn:Hy.
  - intros [= <-]. exists y. split_and!; [done | done |]. intros j z Hj. lia.
  - intros H. apply fmap_Some in H as (i' & Hi' & ->).
    destruct (IH _ Hi') as (x & Hx & Hpx & Hlt).
    exists x. split_and!; [done | done |].
    intros [|j] z Hj Hz; simpl in Hz; [congruence |]. apply (Hlt j); [lia | done].
Qed.

(** Two elements of a list with pairwise distinct keys and one key are one. *)
Lemma NoDup_fmap_same {A B} (f : A → B) (l : list A) (x y : A) :
  NoDup (f <$> l) → x ∈ l → y ∈ l → f x = f y → x = y.
Proof.
  intros Hnd Hx Hy Hf.
  apply list_elem_of_lookup in Hx as [i Hi]. apply list_elem_of_lookup in Hy as [j Hj].
  assert (i = j) as ->.
  { eapply (NoDup_lookup _ _ _ (f x) Hnd); rewrite list_lookup_fmap.
    - by rewrite Hi.
    - rewrite Hj. simpl. by rewrite Hf. }
  congruence.
Qed.

Lemma owned_by_parse (taskId userId : value) (r : record) :
  owned_by taskId userId (parse r) = true ↔ has_ids taskId userId r.
Proof.
  unfold owned_by, has_ids. rewrite andb_true_iff, !get_parse. done.
Qed.

(** C1. Ownership isolation: in a collection with unique task ids, for a
    task [T] owned by [A] and any user id [B] other than [A], [updateTask],
    [deleteTask] and [toggleTaskCompletion] called with [T]'s id and [B]
    return the NotFound failure and leave both files as they were. *)
Theorem ownership_isolation (e : env) (d : disk) (tasks : list record)
    (T : record) (A B : value) (data : object) :
  TASKS_FILE d = Some tasks →
  unique_ids tasks →
  T ∈ tasks →
  prop "userId" T = A →
  B ≠ A →
  updateTask e (prop "id" T) B data d = (Failure NotFound, d)
  ∧ deleteTask e (prop "id" T) B d = (Failure NotFound, d)
  ∧ toggleTaskCompletion e (prop "id" T) B d = (Failure NotFound, d).
Proof.
  intros Hfile Hnd HT HA HB.
  assert (findIndex (owned_by (prop "id" T) B) (getTasks undefined d) = None) as Hnone.
  { apply findIndex_None. intros o Ho.
    rewrite getTasks_all in Ho. unfold read_tasks in Ho. rewrite Hfile in Ho. simpl in Ho.
    apply list_elem_of_fmap in Ho as (r & -> & Hr).
    destruct (owned_by (prop "id" T) B (parse r)) eqn:Hown; [| done].
    apply owned_by_parse in Hown as [Hid Hu].
    apply strict_eq_true in Hid, Hu.
    assert (r = T) as -> by (eapply (NoDup_fmap_same _ tasks); eauto).
    congruence. }
  unfold updateTask, deleteTask, toggleTaskCompletion. by rewrite Hnone.
Qed.


(** *** createUser *)

Lemma createUser_conflict (e : env) (username email : value) (password : string)
    (d : disk) (u : record) :
  u ∈ read_users d →
  strict_eq (prop "username" u) username = true
  ∨ strict_eq (prop "email" u) email = true →
  createUser e username email password d = (Failure Conflict, d).
Proof.
  intros Hu Hor. unfold createUser.
  destruct (List.find _ (getUsers d)) eqn:Hfind; [done |].
  assert (In (parse u) (getUsers d)) as Hin.
  { rewrite getUsers_read. apply list_elem_of_In. by apply list_elem_of_fmap_2. }
  pose proof (find_none _ _ Hfind _ Hin) as Hf. simpl in Hf.
  rewrite !get_parse in Hf.
  destruct Hor as [H | H]; rewrite H in Hf; [done | by rewrite orb_true_r in Hf].
Qed.

(** What a call of [createUser] does to the disk: nothing, or one record
    appended whose username and email no stored record has. *)
Lemma createUser_cases (e : env) (username email : value) (password : string)
    (d : disk) :
  let '(r, d') := createUser e username email password d in
  (succeeded r = false ∧ d' = d)
  ∨ (r = Success (generateId e)
     ∧ write_ok e = true
     ∧ USERS_FILE d' = Some (read_users d ++ [new_user_record e username email password])
     ∧ TASKS_FILE d' = TASKS_FILE d
     ∧ ∀ u, u ∈ read_users d →
            strict_eq (prop "username" u) username = false
            ∧ strict_eq (prop "email" u) email = false).
Proof.
  unfold createUser.
  destruct (List.find _ (getUsers d)) eqn:Hfind; [by left |].
  unfold saveUsers. destruct (write_ok e) eqn:Hw; [| by left].
  right. split_and!; [done | done | | done |].
  - simpl. rewrite fmap_app, getUsers_read, stringify_parse_list. done.
  - intros u Hu.
    assert (In (parse u) (getUsers d)) as Hin.
    { rewrite getUsers_read. apply list_elem_of_In. by apply list_elem_of_fmap_2. }
    pose proof (find_none _ _ Hfind _ Hin) as Hf. simpl in Hf.
    apply orb_false_iff in Hf as [H1 H2].
    rewrite get_parse in H1, H2. done.
Qed.

Lemma new_user_record_lookup e username email password :
  let r := new_user_record e username email password in
  r !! "id" = Some (JStr (generateId e))
  ∧ r !! "username" = to_json username
  ∧ r !! "email" = to_json email
  ∧ r !! "password" = Some (JStr (sha256_hex password))
  ∧ r !! "createdAt" = Some (JStr (date1 e)).
Proof.
  simpl. unfold new_user_record. rewrite !lookup_stringify. by vm_compute.
Qed.

Lemma new_user_record_username e username email password :
  prop "username" (new_user_record e username email password) = reread username.
Proof. unfold new_user_record. rewrite prop_stringify. by vm_compute. Qed.

Lemma new_user_record_email e username email password :
  prop "email" (new_user_record e username email password) = reread email.
Proof. unfold new_user_record. rewrite prop_stringify. by vm_compute. Qed.

Lemma new_user_record_password e username email password :
  prop "password" (new_user_record e username email password)
  = str (sha256_hex password).
Proof. unfold new_user_record. rewrite prop_stringify. by vm_compute. Qed.

Lemma NoDup_snoc_fresh {A B} (f : A → B) (l : list A) (x : A) :
  NoDup (f <$> l) → (∀ y, y ∈ l → f y ≠ f x) → NoDup (f <$> (l ++ [x])).
Proof.
  intros Hnd Hfresh. rewrite fmap_app. apply NoDup_app. split_and!; [done | |].
  - intros b Hb Hb'. apply list_elem_of_fmap in Hb as (y & -> & Hy).
    simpl in Hb'. apply list_elem_of_singleton in Hb'. by apply (Hfresh y).
  - simpl. apply NoDup_singleton.
Qed.

(** A value that is [===] to nothing stored differs from everything stored,
    when it is read back as written. *)
Lemma strict_eq_false_stable (a b : value) :
  json_stable b = true → strict_eq a b = false → a ≠ b.
Proof.
  intros Hb Hf ->. rewrite strict_eq_stable in Hf; done.
Qed.

Lemma createUser_preserves_unique (e : env) (username email : value)
    (password : string) (d : disk) :
  json_stable username = true → json_stable email = true →
  users_unique (read_users d) →
  users_unique (read_users (createUser e username email password d).2).
Proof.
  intros Hsu Hse [Hn He].
  pose proof (createUser_cases e username email password d) as H.
  destruct (createUser e username email password d) as [r d']. simpl.
  destruct H as [[_ ->] | (_ & _ & Hfile & _ & Hfresh)]; [done |].
  unfold read_users at 1. rewrite Hfile. simpl. split.
  - apply NoDup_snoc_fresh; [done |]. intros y Hy.
    rewrite new_user_record_username, reread_stable by done.
    apply strict_eq_false_stable; [done |]. by apply Hfresh.
  - apply NoDup_snoc_fresh; [done |]. intros y Hy.
    rewrite new_user_record_email, reread_stable by done.
    apply strict_eq_false_stable; [done |]. by apply Hfresh.
Qed.

(** Uniqueness holds for the usernames and emails that are read back as
    written: in every state reached from an empty user file by calls of
    [createUser] with such values, no two user records share a username
    and no two share an email (equality of the values, so case-sensitive),
    and a call whose username or email is that of a stored record returns
    the Conflict failure and leaves the disk as it was. *)
Theorem createUser_unique_stable (d : disk) :
  reachable d →
  users_unique (read_users d)
  ∧ ∀ (e : env) (username email : value) (password : string) (u : record),
      u ∈ read_users d →
      json_stable username = true → json_stable email = true →
      prop "username" u = username ∨ prop "email" u = email →
      createUser e username email password d = (Failure Conflict, d).
Proof.
  intros Hreach. split.
  - induction Hreach as [d Hd | e username email password d Hsu Hse _ IH].
    + rewrite Hd. split; simpl; apply NoDup_nil_2.
    + by apply createUser_preserves_unique.
  - intros e username email password u Hu Hsu Hse Hor.
    apply (createUser_conflict _ _ _ _ _ u); [done |].
    destruct Hor as [-> | ->]; [left | right]; by apply strict_eq_stable.
Qed.


(** *** authenticateUser *)

Lemma authenticate_test (identifier : value) (password : string) (u : record) :
  (strict_eq (get "username" (parse u)) identifier
   || strict_eq (get "email" (parse u)) identifier)
  && verifyPassword password (get "password" (parse u)) = true
  ↔ credentials_of identifier password u.
Proof.
  unfold credentials_of, verifyPassword.
  rewrite andb_true_iff, orb_true_iff, strict_eq_str_l, !get_parse.
  split; intros [H1 H2]; split; done.
Qed.

Lemma dom_user_view (user : object) :
  dom (user_view user) = ({[ "id"; "username"; "email" ]} : gset string).
Proof.
  unfold user_view. rewrite !dom_insert_L, dom_singleton_L. set_solver.
Qed.

(** C5. [authenticateUser] succeeds when some stored user has the identifier
    as username or as email and the digest of the password as stored digest;
    it returns the Unauthorized failure when no stored user has both; a
    successful result is the view of such a user and has the properties id,
    username and email only; and the record that [createUser] stores holds
    the digest of the password, the result of [createUser] being the same
    for any two passwords of one digest. *)
Theorem authenticate_spec (d : disk) (identifier : value) (password : string) :
  (∀ u, u ∈ read_users d → credentials_of identifier password u →
        succeeded (authenticateUser identifier password d) = true)
  ∧ ((∀ u, u ∈ read_users d → ¬ credentials_of identifier password u) →
     authenticateUser identifier password d = Failure Unauthorized)
  ∧ (∀ view, authenticateUser identifier password d = Success view →
       dom view = {[ "id"; "username"; "email" ]}
       ∧ view !! "password" = None
       ∧ ∃ u, u ∈ read_users d ∧ credentials_of identifier password u
              ∧ view = user_view (parse u))
  ∧ (∀ e username email id d',
       createUser e username email password d = (Success id, d') →
       (∃ r, USERS_FILE d' = Some (read_users d ++ [r])
             ∧ r !! "password" = Some (JStr (sha256_hex password))
             ∧ dom r ⊆ {[ "id"; "username"; "email"; "password"; "createdAt" ]})
       ∧ ∀ password', sha256_hex password' = sha256_hex password →
           createUser e username email password' d = (Success id, d')).
Proof.
  split_and!.
  - intros u Hu Hc. unfold authenticateUser.
    destruct (List.find _ (getUsers d)) eqn:Hfind; [done |].
    assert (In (parse u) (getUsers d)) as Hin.
    { rewrite getUsers_read. apply list_elem_of_In. by apply list_elem_of_fmap_2. }
    pose proof (find_none _ _ Hfind _ Hin) as Hf. simpl in Hf.
    apply authenticate_test in Hc. congruence.
  - intros Hnone. unfold authenticateUser.
    destruct (List.find _ (getUsers d)) as [o|] eqn:Hfind; [| done].
    apply find_some in Hfind as [Hin Hf].
    rewrite getUsers_read in Hin. apply list_elem_of_In in Hin.
    apply list_elem_of_fmap in Hin as (u & -> & Hu).
    apply authenticate_test in Hf. by destruct (Hnone u Hu).
  - intros view. unfold authenticateUser.
    destruct (List.find _ (getUsers d)) as [o|] eqn:Hfind; [| done].
    intros [= <-]. apply find_some in Hfind as [Hin Hf].
    rewrite getUsers_read in Hin. apply list_elem_of_In in Hin.
    apply list_elem_of_fmap in Hin as (u & -> & Hu).
    apply authenticate_test in Hf. split_and!.
    + apply dom_user_view.
    + apply not_elem_of_dom. rewrite dom_user_view.
      rewrite !elem_of_union, !elem_of_singleton. by intros [[? | ?] | ?].
    + by exists u.
  - intros e username email id d' Hcreate.
    pose proof (createUser_cases e username email password d) as H.
    rewrite Hcreate in H. destruct H as [[? _] | (_ & _ & Hfile & _ & _)]; [done |].
    split.
    + exists (new_user_record e username email password). split_and!.
      * done.
      * apply new_user_record_lookup.
      * unfold new_user_record, stringify. etrans; [apply dom_omap_subseteq |].
        rewrite !dom_insert_L, dom_singleton_L. set_solver.
    + intros password' Hsame. rewrite <- Hcreate.
      unfold createUser, hashPassword. by rewrite Hsame.
Qed.


(** *** getTaskStats *)

Lemma getTasks_scoped (userId : value) (d : disk) :
  truthy userId = true →
  getTasks userId d
  = List.filter (λ task, strict_eq (get "userId" task) userId) (parse <$> read_tasks d).
Proof.
  intros Ht. unfold getTasks, read_tasks.
  destruct userId; try done; unfold default_param; rewrite Ht;
    by destruct (TASKS_FILE d).
Qed.

(** Four tests of which at most one holds of any element select at most
    the whole list. *)
Lemma filter_exclusive_length {A} (c p1 p2 p3 : A → bool) (l : list A) :
  (∀ x, p1 x = true → c x = false ∧ p2 x = false ∧ p3 x = false) →
  (∀ x, p2 x = true → c x = false ∧ p3 x = false) →
  (∀ x, p3 x = true → c x = false) →
  (length (List.filter p1 l) + length (List.filter p2 l)
   + length (List.filter p3 l) + length (List.filter c l) ≤ length l)%nat.
Proof.
  intros H1 H2 H3. induction l as [|x l IH]; simpl; [lia |].
  destruct (p1 x) eqn:E1.
  - destruct (H1 x E1) as (-> & -> & ->). simpl. lia.
  - destruct (p2 x) eqn:E2.
    + destruct (H2 x E2) as (-> & ->). simpl. lia.
    + destruct (p3 x) eqn:E3.
      * rewrite (H3 x E3). simpl. lia.
      * destruct (c x); simpl; lia.
Qed.

Lemma filter_filter_parse (own q : object → bool) (l : list record) :
  List.filter q (List.filter own (parse <$> l))
  = parse <$> List.filter (λ r, own (parse r) && q (parse r)) l.
Proof.
  induction l as [|r l IH]; [done |].
  rewrite fmap_cons. cbn [List.filter].
  destruct (own (parse r)); cbn [List.filter andb]; [| done].
  destruct (q (parse r)); [rewrite fmap_cons |]; by rewrite IH.
Qed.

Lemma priority_test_exclusive (p p' : string) (task : object) :
  p ≠ p' →
  negb (truthy (get "completed" task)) && strict_eq (get "priority" task) (str p) = true →
  truthy (get "completed" task) = false
  ∧ negb (truthy (get "completed" task)) && strict_eq (get "priority" task) (str p') = false.
Proof.
  intros Hne H. apply andb_true_iff in H as [Hc Hp].
  apply negb_true_iff in Hc. apply strict_eq_true in Hp.
  split; [done |]. apply andb_false_iff. right. apply strict_eq_ne.
  rewrite Hp. congruence.
Qed.

(** C6. For every [userId] and every disk the statistics
    satisfy [total = completed + pending] and
    [high + medium + low <= pending]; and when [userId] is truthy (as every
    generated id is), each count of [byPriority] is the number of that
    user's tasks that are not completed and have that priority. *)
Theorem stats_consistency (userId : value) (d : disk) :
  let s := getTaskStats userId d in
  total s = completed s + pending s
  ∧ high (byPriority s) + medium (byPriority s) + low (byPriority s) <= pending s
  ∧ (truthy userId = true →
     high (byPriority s) = incomplete_with_priority userId "high" (read_tasks d)
     ∧ medium (byPriority s) = incomplete_with_priority userId "medium" (read_tasks d)
     ∧ low (byPriority s) = incomplete_with_priority userId "low" (read_tasks d)).
Proof.
  simpl. split_and!.
  - lia.
  - pose (c := λ task : object, truthy (get "completed" task)).
    pose (pr := λ (p : string) (task : object),
            negb (truthy (get "completed" task))
            && strict_eq (get "priority" task) (str p)).
    assert (∀ p p' x, p ≠ p' → pr p x = true → c x = false ∧ pr p' x = false) as Hex.
    { intros p p' x Hne Hx. by apply priority_test_exclusive with (p := p). }
    pose proof (filter_exclusive_length c (pr "high") (pr "medium") (pr "low")
                  (getTasks userId d)) as H.
    unfold c, pr in H, Hex. unfold len.
    assert ("high" ≠ "medium" ∧ "high" ≠ "low" ∧ "medium" ≠ "low") as (N1 & N2 & N3)
      by done.
    cut (∀ a b c0 t : nat, (a + b + c0 + t ≤ length (getTasks userId d))%nat →
          Z.of_nat a + Z.of_nat b + Z.of_nat c0
          <= Z.of_nat (length (getTasks userId d)) - Z.of_nat t); [| lia].
    intros Hcut. apply Hcut, H.
    + intros x Hx. destruct (Hex _ _ x N1 Hx) as [Hc Hm].
      by destruct (Hex _ _ x N2 Hx) as [_ Hl].
    + intros x Hx. by destruct (Hex _ _ x N3 Hx) as [Hc Hl].
    + intros x Hx. by destruct (Hex _ _ x (not_eq_sym N2) Hx) as [Hc _].
  - intros Ht. unfold incomplete_with_priority, len.
    rewrite (getTasks_scoped _ _ Ht), !filter_filter_parse, !length_fmap.
    split_and!; do 2 f_equal; apply List.filter_ext; intros r;
      rewrite !get_parse; by rewrite andb_assoc.
Qed.


(** *** The task mutations, case by case *)

Lemma findIndex_first_match (taskId userId : value) (tasks : list record) (i : nat) :
  findIndex (owned_by taskId userId) (parse <$> tasks) = Some i →
  ∃ old, first_match taskId userId tasks i old.
Proof.
  intros H. apply findIndex_Some in H as (x & Hx & Hown & Hlt).
  apply list_lookup_fmap_Some in Hx as (old & -> & Hold).
  apply owned_by_parse in Hown.
  exists old. split_and!; [done | done |].
  intros j t Hj Ht Hboth. apply owned_by_parse in Hboth.
  rewrite (Hlt j (parse t) Hj) in Hboth; [done |].
  by rewrite list_lookup_fmap, Ht.
Qed.

Lemma findIndex_no_match (taskId userId : value) (tasks : list record) :
  findIndex (owned_by taskId userId) (parse <$> tasks) = None →
  no_match taskId userId tasks.
Proof.
  intros H t Ht Hboth. apply owned_by_parse in Hboth.
  rewrite (proj1 (findIndex_None _ _) H (parse t)) in Hboth; [done |].
  by apply list_elem_of_fmap_2.
Qed.

Lemma createTask_cases (e : env) (userId title description priority : value)
    (d : disk) :
  let '(r, d') := createTask e userId title description priority d in
  let new := stringify
      {[ "id" := str (generateId e);
         "userId" := userId;
         "title" := title;
         "description" := default_param description (str "");
         "priority" := default_param priority (str "medium");
         "completed" := boolean false;
         "createdAt" := str (date1 e);
         "updatedAt" := str (date2 e) ]} in
  (write_ok e = false ∧ succeeded r = false ∧ d' = d)
  ∨ (write_ok e = true ∧ r = Success (generateId e)
     ∧ TASKS_FILE d' = Some (read_tasks d ++ [new])
     ∧ USERS_FILE d' = USERS_FILE d).
Proof.
  unfold createTask, saveTasks. destruct (write_ok e); [right | by left].
  split_and!; [done | done | | done].
  simpl. by rewrite fmap_app, getTasks_all, stringify_parse_list.
Qed.

Lemma updateTask_cases (e : env) (taskId userId : value) (data : object) (d : disk) :
  let '(r, d') := updateTask e taskId userId data d in
  (r = Failure NotFound ∧ d' = d ∧ no_match taskId userId (read_tasks d))
  ∨ (write_ok e = false ∧ succeeded r = false ∧ d' = d)
  ∨ (write_ok e = true ∧ r = Success ()
     ∧ ∃ i old, first_match taskId userId (read_tasks d) i old
         ∧ TASKS_FILE d' = Some (<[i := updated_record e data old]> (read_tasks d))
         ∧ USERS_FILE d' = USERS_FILE d).
Proof.
  unfold updateTask. rewrite getTasks_all.
  destruct (findIndex _ _) as [i|] eqn:Hfind;
    [| left; split_and!; [done | done | by apply findIndex_no_match]].
  destruct (findIndex_first_match _ _ _ _ Hfind) as (old & Hfm).
  pose proof Hfm as (Hold & _).
  rewrite list_lookup_fmap, Hold. simpl.
  unfold saveTasks. destruct (write_ok e); right; [right | by left].
  split_and!; [done | done |]. exists i, old. split_and!; [done | | done].
  simpl. by rewrite list_fmap_insert, stringify_parse_list.
Qed.

Lemma deleteTask_cases (e : env) (taskId userId : value) (d : disk) :
  let '(r, d') := deleteTask e taskId userId d in
  (r = Failure NotFound ∧ d' = d ∧ no_match taskId userId (read_tasks d))
  ∨ (write_ok e = false ∧ succeeded r = false ∧ d' = d)
  ∨ (write_ok e = true ∧ r = Success ()
     ∧ ∃ i old, first_match taskId userId (read_tasks d) i old
         ∧ TASKS_FILE d' = Some (delete i (read_tasks d))
         ∧ USERS_FILE d' = USERS_FILE d).
Proof.
  unfold deleteTask. rewrite getTasks_all.
  destruct (findIndex _ _) as [i|] eqn:Hfind;
    [| left; split_and!; [done | done | by apply findIndex_no_match]].
  destruct (findIndex_first_match _ _ _ _ Hfind) as (old & Hfm).
  unfold saveTasks. destruct (write_ok e); right; [right | by left].
  split_and!; [done | done |]. exists i, old. split_and!; [done | | done].
  simpl. by rewrite list_fmap_delete, stringify_parse_list.
Qed.

Lemma toggleTaskCompletion_cases (e : env) (taskId userId : value) (d : disk) :
  let '(r, d') := toggleTaskCompletion e taskId userId d in
  (r = Failure NotFound ∧ d' = d ∧ no_match taskId userId (read_tasks d))
  ∨ (write_ok e = false ∧ succeeded r = false ∧ d' = d)
  ∨ (write_ok e = true
     ∧ ∃ i old, first_match taskId userId (read_tasks d) i old
         ∧ r = Success (negb (truthy (prop "completed" old)))
         ∧ TASKS_FILE d' = Some (<[i := toggled_record e old]> (read_tasks d))
         ∧ USERS_FILE d' = USERS_FILE d).
Proof.
  unfold toggleTaskCompletion. rewrite getTasks_all.
  destruct (findIndex _ _) as [i|] eqn:Hfind;
    [| left; split_and!; [done | done | by apply findIndex_no_match]].
  destruct (findIndex_first_match _ _ _ _ Hfind) as (old & Hfm).
  pose proof Hfm as (Hold & _).
  rewrite list_lookup_fmap, Hold. simpl.
  unfold saveTasks. destruct (write_ok e); right; [right | by left].
  split_and!; [done |]. exists i, old. rewrite get_parse.
  split_and!; [done | done | | done].
  simpl. rewrite list_fmap_insert, stringify_parse_list.
  unfold toggled_record. done.
Qed.


Lemma updated_record_lookup (e : env) (data : object) (old : record) (k : string) :
  k ≠ "updatedAt" → data !! k = None → updated_record e data old !! k = old !! k.
Proof.
  intros Hk Hdata. unfold updated_record.
  rewrite lookup_stringify, get_insert_ne by done.
  by rewrite get_spread_absent, get_parse, to_json_prop.
Qed.

Lemma toggled_record_lookup (e : env) (old : record) (k : string) :
  k ≠ "updatedAt" → k ≠ "completed" → toggled_record e old !! k = old !! k.
Proof.
  intros H1 H2. unfold toggled_record.
  rewrite lookup_stringify, !get_insert_ne by done.
  by rewrite get_parse, to_json_prop.
Qed.

Lemma toggled_record_completed (e : env) (old : record) :
  toggled_record e old !! "completed"
  = Some (JBool (negb (truthy (prop "completed" old)))).
Proof.
  unfold toggled_record.
  rewrite lookup_stringify, get_insert_ne by done. by rewrite get_insert_eq.
Qed.

Lemma read_tasks_file (d : disk) (tasks : list record) :
  TASKS_FILE d = Some tasks → read_tasks d = tasks.
Proof. unfold read_tasks. by intros ->. Qed.

(** In a collection with unique ids the first match of the id of a task
    is the task itself. *)
Lemma first_match_unique (tasks : list record) (i j : nat) (T old : record)
    (taskId userId : value) :
  unique_ids tasks → tasks !! i = Some T →
  strict_eq (prop "id" T) taskId = true →
  first_match taskId userId tasks j old → j = i ∧ old = T.
Proof.
  intros Hnd HT HidT (Hold & [Hid _] & _).
  apply strict_eq_true in Hid, HidT.
  assert (j = i) as ->.
  { eapply (NoDup_lookup _ _ _ taskId Hnd); rewrite list_lookup_fmap.
    - rewrite Hold. simpl. by rewrite Hid.
    - rewrite HT. simpl. by rewrite HidT. }
  split; [done | congruence].
Qed.

Lemma unique_ids_insert (tasks : list record) (i : nat) (old new : record) :
  unique_ids tasks → tasks !! i = Some old → new !! "id" = old !! "id" →
  unique_ids (<[i := new]> tasks).
Proof.
  unfold unique_ids. intros Hnd Hold Hid.
  assert (prop "id" new = prop "id" old) as Hp by (by rewrite !prop_lookup, Hid).
  rewrite list_fmap_insert, Hp, list_insert_id; [done |].
  by rewrite list_lookup_fmap, Hold.
Qed.

(** *** The claims on the task mutations *)

(** C7. An unreadable file is read as an empty collection by every
    reading operation, none of which fails; and when the write fails every
    mutating operation ([createUser], [createTask], [updateTask],
    [deleteTask], [toggleTaskCompletion]) returns a failure. *)
Theorem persistence_failures (d : disk) :
  (USERS_FILE d = None →
     getUsers d = []
     ∧ (∀ userId, getUserById userId d = None)
     ∧ (∀ username password,
          authenticateUser username password d = Failure Unauthorized))
  ∧ (TASKS_FILE d = None →
     ∀ userId,
       getTasks userId d = []
       ∧ getTaskStats userId d
         = {| total := 0; completed := 0; pending := 0;
              byPriority := {| high := 0; medium := 0; low := 0 |} |})
  ∧ (getUsers d = getUsers (as_empty d)
     ∧ ∀ userId, getTasks userId d = getTasks userId (as_empty d))
  ∧ (∀ e : env, write_ok e = false →
       (∀ username email password,
          succeeded (createUser e username email password d).1 = false)
       ∧ (∀ userId title description priority,
          succeeded (createTask e userId title description priority d).1 = false)
       ∧ (∀ taskId userId data,
          succeeded (updateTask e taskId userId data d).1 = false)
       ∧ (∀ taskId userId,
          succeeded (deleteTask e taskId userId d).1 = false)
       ∧ (∀ taskId userId,
          succeeded (toggleTaskCompletion e taskId userId d).1 = false)).
Proof.
  split_and!.
  - intros Hu. unfold getUserById, authenticateUser, getUsers. by rewrite Hu.
  - intros Ht userId. unfold getTaskStats, getTasks. by rewrite Ht.
  - unfold getUsers, as_empty, read_users. simpl. by destruct (USERS_FILE d).
  - intros userId. unfold getTasks, as_empty, read_tasks. simpl.
    destruct (TASKS_FILE d); [done |]. simpl. by destruct (truthy _).
  - intros e Hw. split_and!.
    + intros username email password.
      pose proof (createUser_cases e username email password d) as H.
      destruct (createUser _ _ _ _ _) as [r d']. simpl.
      destruct H as [[? _] | (_ & ? & _)]; [done | congruence].
    + intros userId title description priority.
      pose proof (createTask_cases e userId title description priority d) as H.
      destruct (createTask _ _ _ _ _ _) as [r d']. simpl.
      destruct H as [(_ & ? & _) | (? & _)]; [done | congruence].
    + intros taskId userId data.
      pose proof (updateTask_cases e taskId userId data d) as H.
      destruct (updateTask _ _ _ _ _) as [r d']. simpl.
      destruct H as [(-> & _) | [(_ & ? & _) | (? & _)]]; [done | done | congruence].
    + intros taskId userId.
      pose proof (deleteTask_cases e taskId userId d) as H.
      destruct (deleteTask _ _ _ _) as [r d']. simpl.
      destruct H as [(-> & _) | [(_ & ? & _) | (? & _)]]; [done | done | congruence].
    + intros taskId userId.
      pose proof (toggleTaskCompletion_cases e taskId userId d) as H.
      destruct (toggleTaskCompletion _ _ _ _) as [r d']. simpl.
      destruct H as [(-> & _) | [(_ & ? & _) | (? & _)]]; [done | done | congruence].
Qed.


Lemma replaced_at_insert (i : nat) (new : record) (tasks : list record) :
  replaced_at i new tasks (<[i := new]> tasks).
Proof.
  split_and!; [done | apply length_insert |].
  intros j Hj. by apply list_lookup_insert_ne.
Qed.

Lemma others_removed (userId : value) (tasks : list record) (i : nat) (old : record) :
  tasks !! i = Some old → strict_eq (prop "userId" old) userId = true →
  others userId (take i tasks ++ drop (S i) tasks) = others userId tasks.
Proof.
  intros Hold Hu. unfold others.
  rewrite <- (take_drop_middle tasks i old Hold) at 3.
  rewrite !List.filter_app. simpl. by rewrite Hu.
Qed.

Lemma others_replaced (userId : value) (tasks : list record) (i : nat)
    (old new : record) :
  tasks !! i = Some old → strict_eq (prop "userId" old) userId = true →
  new !! "userId" = old !! "userId" →
  others userId (<[i := new]> tasks) = others userId tasks.
Proof.
  intros Hold Hu Hn. unfold others.
  assert (prop "userId" new = prop "userId" old) as Hp by (by rewrite !prop_lookup, Hn).
  rewrite insert_take_drop by (by eapply lookup_lt_Some).
  rewrite <- (take_drop_middle tasks i old Hold) at 3.
  rewrite !List.filter_app. simpl. by rewrite Hp, Hu.
Qed.

(** C10. A successful mutation touches one record of the task file and
    nothing else: [createTask] appends one record to the records read;
    [updateTask] and [toggleTaskCompletion] replace the first record that
    has both the task id and the user id, every other position keeping
    its record; [deleteTask] removes that record and keeps the others in
    order; the tasks of the other users, and the user file, are as they
    were. *)
Theorem mutation_frame (e : env) (d d' : disk) :
  (∀ userId title description priority id,
     createTask e userId title description priority d = (Success id, d') →
     (∃ new, read_tasks d' = read_tasks d ++ [new])
     ∧ USERS_FILE d' = USERS_FILE d)
  ∧ (∀ taskId userId data,
     updateTask e taskId userId data d = (Success (), d') →
     (∃ i old new, first_match taskId userId (read_tasks d) i old
                   ∧ replaced_at i new (read_tasks d) (read_tasks d'))
     ∧ USERS_FILE d' = USERS_FILE d)
  ∧ (∀ taskId userId completed,
     toggleTaskCompletion e taskId userId d = (Success completed, d') →
     (∃ i old new, first_match taskId userId (read_tasks d) i old
                   ∧ replaced_at i new (read_tasks d) (read_tasks d'))
     ∧ others userId (read_tasks d') = others userId (read_tasks d)
     ∧ USERS_FILE d' = USERS_FILE d)
  ∧ (∀ taskId userId,
     deleteTask e taskId userId d = (Success (), d') →
     (∃ i old, first_match taskId userId (read_tasks d) i old
               ∧ removed_at i (read_tasks d) (read_tasks d'))
     ∧ others userId (read_tasks d') = others userId (read_tasks d)
     ∧ USERS_FILE d' = USERS_FILE d).
Proof.
  split_and!.
  - intros userId title description priority id Hop.
    pose proof (createTask_cases e userId title description priority d) as H.
    rewrite Hop in H. destruct H as [(_ & ? & _) | (_ & _ & Hfile & Hu)]; [done |].
    split; [| done]. eexists. by rewrite (read_tasks_file _ _ Hfile).
  - intros taskId userId data Hop.
    pose proof (updateTask_cases e taskId userId data d) as H.
    rewrite Hop in H.
    destruct H as [(? & _) | [(_ & ? & _) | (_ & _ & i & old & Hfm & Hfile & Hu)]];
      [done | done |].
    split; [| done]. exists i, old, (updated_record e data old).
    split; [done |]. rewrite (read_tasks_file _ _ Hfile). apply replaced_at_insert.
  - intros taskId userId completed Hop.
    pose proof (toggleTaskCompletion_cases e taskId userId d) as H.
    rewrite Hop in H.
    destruct H as [(? & _) | [(_ & ? & _) | (_ & i & old & Hfm & _ & Hfile & Hu)]];
      [done | done |].
    rewrite (read_tasks_file _ _ Hfile). split_and!; [| | done].
    + exists i, old, (toggled_record e old). split; [done |]. apply replaced_at_insert.
    + destruct Hfm as (Hold & [_ Hown] & _).
      eapply others_replaced; [done | done |].
      by rewrite toggled_record_lookup.
  - intros taskId userId Hop.
    pose proof (deleteTask_cases e taskId userId d) as H.
    rewrite Hop in H.
    destruct H as [(? & _) | [(_ & ? & _) | (_ & _ & i & old & Hfm & Hfile & Hu)]];
      [done | done |].
    rewrite (read_tasks_file _ _ Hfile), delete_take_drop. split_and!; [| | done].
    + by exists i, old.
    + destruct Hfm as (Hold & [_ Hown] & _). by eapply others_removed.
Qed.

(** C4, as amended. After a successful [updateTask] whose patch has neither
    an [id] nor a [userId] property, the collection has the same length
    and every task has, at its position, the id and the userId it had. *)
Theorem update_preserves_identity (e : env) (taskId userId : value)
    (data : object) (d d' : disk) :
  data !! "id" = None →
  data !! "userId" = None →
  updateTask e taskId userId data d = (Success (), d') →
  length (read_tasks d') = length (read_tasks d)
  ∧ ∀ j t, read_tasks d !! j = Some t →
      ∃ t', read_tasks d' !! j = Some t'
            ∧ t' !! "id" = t !! "id" ∧ t' !! "userId" = t !! "userId".
Proof.
  intros Hid Hu Hop.
  pose proof (updateTask_cases e taskId userId data d) as H.
  rewrite Hop in H.
  destruct H as [(? & _) | [(_ & ? & _) | (_ & _ & i & old & Hfm & Hfile & _)]];
    [done | done |].
  rewrite (read_tasks_file _ _ Hfile). split; [apply length_insert |].
  intros j t Ht. destruct (decide (j = i)) as [-> | Hne].
  - destruct Hfm as (Hold & _). assert (t = old) as -> by congruence.
    exists (updated_record e data old). split_and!.
    + apply list_lookup_insert_eq. by eapply lookup_lt_Some.
    + by apply updated_record_lookup.
    + by apply updated_record_lookup.
  - exists t. by rewrite list_lookup_insert_ne.
Qed.

(** C9. In a collection with unique ids, for a task whose [completed] is
    a boolean, a [toggleTaskCompletion] by its owner (the task id and the
    user id given are [===] to those of the task) whose write succeeds
    stores and returns the negated boolean, and a second one stores and
    returns the original boolean. *)
Theorem toggle_twice (e1 e2 : env) (d : disk) (tasks : list record) (i : nat)
    (T : record) (b : bool) (taskId userId : value) :
  TASKS_FILE d = Some tasks →
  unique_ids tasks →
  tasks !! i = Some T →
  has_ids taskId userId T →
  T !! "completed" = Some (JBool b) →
  write_ok e1 = true →
  write_ok e2 = true →
  ∃ d1 d2 T1 T2,
    toggleTaskCompletion e1 taskId userId d = (Success (negb b), d1)
    ∧ read_tasks d1 !! i = Some T1
    ∧ T1 !! "completed" = Some (JBool (negb b))
    ∧ toggleTaskCompletion e2 taskId userId d1 = (Success b, d2)
    ∧ read_tasks d2 !! i = Some T2
    ∧ T2 !! "completed" = Some (JBool b).
Proof.
  assert (∀ e d tasks T c, TASKS_FILE d = Some tasks → unique_ids tasks →
            tasks !! i = Some T → has_ids taskId userId T →
            T !! "completed" = Some (JBool c) → write_ok e = true →
            ∃ d', toggleTaskCompletion e taskId userId d = (Success (negb c), d')
                  ∧ TASKS_FILE d' = Some (<[i := toggled_record e T]> tasks)) as Hstep.
  { clear. intros e d tasks T c Hfile Hnd HT Hids Hc Hw.
    pose proof (toggleTaskCompletion_cases e taskId userId d) as H.
    destruct (toggleTaskCompletion _ _ _ _) as [r d'].
    rewrite (read_tasks_file _ _ Hfile) in H.
    destruct H as [(_ & _ & Hno) | [(? & _) | (_ & j & old & Hfm & -> & Hf & _)]].
    - exfalso. apply (Hno T); [by eapply list_elem_of_lookup_2 | done].
    - congruence.
    - destruct (first_match_unique _ _ _ _ _ _ _ Hnd HT (proj1 Hids) Hfm) as [-> ->].
      exists d'. rewrite prop_lookup, Hc. by split. }
  intros Hfile Hnd HT Hids Hc Hw1 Hw2.
  destruct (Hstep e1 d tasks T b Hfile Hnd HT Hids Hc Hw1) as (d1 & Hr1 & Hf1).
  set (T1 := toggled_record e1 T) in *.
  assert (T1 !! "id" = T !! "id") as Hid1 by (by apply toggled_record_lookup).
  assert (T1 !! "userId" = T !! "userId") as Hu1 by (by apply toggled_record_lookup).
  assert (has_ids taskId userId T1) as Hids1.
  { unfold has_ids. rewrite !prop_lookup, Hid1, Hu1, <- !prop_lookup. done. }
  assert (T1 !! "completed" = Some (JBool (negb b))) as Hc1.
  { unfold T1. by rewrite toggled_record_completed, prop_lookup, Hc. }
  assert ((<[i := T1]> tasks) !! i = Some T1) as HT1.
  { apply list_lookup_insert_eq. by eapply lookup_lt_Some. }
  destruct (Hstep e2 d1 _ T1 (negb b) Hf1 (unique_ids_insert _ _ _ _ Hnd HT Hid1)
              HT1 Hids1 Hc1 Hw2) as (d2 & Hr2 & Hf2).
  rewrite negb_involutive in Hr2.
  exists d1, d2, T1, (toggled_record e2 T1).
  rewrite (read_tasks_file _ _ Hf1), (read_tasks_file _ _ Hf2).
  split_and!; [done | done | done | done | |].
  - apply list_lookup_insert_eq. rewrite length_insert. by eapply lookup_lt_Some.
  - rewrite toggled_record_completed, prop_lookup, Hc1. simpl. by rewrite negb_involutive.
Qed.


Lemma updated_record_lookup_patch (e : env) (data : object) (old : record)
    (k : string) (v : value) :
  k ≠ "updatedAt" → data !! k = Some v → updated_record e data old !! k = to_json v.
Proof.
  intros Hk Hdata. unfold updated_record.
  rewrite lookup_stringify, get_insert_ne by done.
  by erewrite get_spread_present.
Qed.

Lemma valid_priority_reread (v : value) : valid_priority v → reread v = v.
Proof. by intros [-> | [-> | ->]]. Qed.

Lemma priorities_valid_insert (tasks : list record) (i : nat) (new : record) :
  priorities_valid tasks → valid_priority (prop "priority" new) →
  priorities_valid (<[i := new]> tasks).
Proof.
  intros Hall Hnew. destruct (decide (i < length tasks)%nat) as [Hlt | Hge].
  - by apply Forall_insert.
  - rewrite list_insert_ge; [done | lia].
Qed.

Lemma run_call_priorities (c : call) (d : disk) :
  priorities_valid (read_tasks d) → passes_valid_priority c →
  priorities_valid (read_tasks (run_call d c)).
Proof.
  intros Hall Hc. destruct c as [e userId title description priority
    | e taskId userId data | e taskId userId | e taskId userId]; simpl.
  - pose proof (createTask_cases e userId title description priority d) as H.
    destruct (createTask _ _ _ _ _ _) as [r d']. simpl.
    destruct H as [(_ & _ & ->) | (_ & _ & Hfile & _)]; [done |].
    rewrite (read_tasks_file _ _ Hfile). apply Forall_app. split; [done |].
    apply Forall_singleton. rewrite prop_stringify.
    change (valid_priority (reread (default_param priority (str "medium")))).
    simpl in Hc. destruct Hc as [-> | Hv]; [right; by left |].
    by destruct Hv as [-> | [-> | ->]]; [left | right; left | right; right].
  - pose proof (updateTask_cases e taskId userId data d) as H.
    destruct (updateTask _ _ _ _ _) as [r d']. simpl.
    destruct H as [(_ & -> & _) | [(_ & _ & ->) | (_ & _ & i & old & Hfm & Hfile & _)]];
      [done | done |].
    rewrite (read_tasks_file _ _ Hfile). apply priorities_valid_insert; [done |].
    destruct Hfm as (Hold & _). simpl in Hc. destruct Hc as [Hnone | (p & Hp & Hv)].
    + rewrite prop_lookup, updated_record_lookup, <- prop_lookup by done.
      by apply (Forall_lookup_1 _ _ _ _ Hall Hold).
    + rewrite prop_lookup, (updated_record_lookup_patch _ _ _ _ p) by done.
      change (valid_priority (reread p)). by rewrite valid_priority_reread.
  - pose proof (deleteTask_cases e taskId userId d) as H.
    destruct (deleteTask _ _ _ _) as [r d']. simpl.
    destruct H as [(_ & -> & _) | [(_ & _ & ->) | (_ & _ & i & old & _ & Hfile & _)]];
      [done | done |].
    rewrite (read_tasks_file _ _ Hfile). by apply Forall_delete.
  - pose proof (toggleTaskCompletion_cases e taskId userId d) as H.
    destruct (toggleTaskCompletion _ _ _ _) as [r d']. simpl.
    destruct H as [(_ & -> & _) | [(_ & _ & ->) | (_ & i & old & Hfm & _ & Hfile & _)]];
      [done | done |].
    rewrite (read_tasks_file _ _ Hfile). apply priorities_valid_insert; [done |].
    destruct Hfm as (Hold & _).
    rewrite prop_lookup, toggled_record_lookup, <- prop_lookup by done.
    by apply (Forall_lookup_1 _ _ _ _ Hall Hold).
Qed.

(** C8, as amended. The store keeps the priority it is given. From a
    collection whose priorities are all low, medium or high, every sequence
    of [createTask], [updateTask], [deleteTask] and [toggleTaskCompletion]
    calls that pass no priority or one of these three leaves a collection
    whose priorities are all low, medium or high; and a [createTask] that is
    given no priority appends a record of priority medium. *)
Theorem priority_invariant (calls : list call) (d : disk) :
  priorities_valid (read_tasks d) →
  Forall passes_valid_priority calls →
  priorities_valid (read_tasks (run calls d))
  ∧ ∀ e userId title description d0 id d',
      createTask e userId title description undefined d0 = (Success id, d') →
      ∃ new, last (read_tasks d') = Some new
             ∧ new !! "priority" = Some (JStr "medium").
Proof.
  intros Hall Hcalls. split.
  - revert d Hall. induction Hcalls as [|c calls Hc _ IH]; intros d Hall; [done |].
    simpl. apply IH. by apply run_call_priorities.
  - intros e userId title description d0 id d' Hop.
    pose proof (createTask_cases e userId title description undefined d0) as H.
    rewrite Hop in H. destruct H as [(_ & ? & _) | (_ & _ & Hfile & _)]; [done |].
    rewrite (read_tasks_file _ _ Hfile). eexists. split; [apply last_snoc |].
    by rewrite lookup_stringify.
Qed.

(** ** Further properties of database.js *)

Lemma find_app_None {A} (p : A → bool) (l1 l2 : list A) :
  List.find p l1 = None → List.find p (l1 ++ l2) = List.find p l2.
Proof.
  induction l1 as [|x l1 IH]; simpl; [done |].
  destruct (p x); [done | apply IH].
Qed.

Lemma find_app_Some {A} (p : A → bool) (l1 l2 : list A) (x : A) :
  List.find p l1 = Some x → List.find p (l1 ++ l2) = Some x.
Proof.
  induction l1 as [|y l1 IH]; simpl; [done |].
  destruct (p y); [done | apply IH].
Qed.

Lemma find_parse_None (p : object → bool) (l : list record) :
  List.find p (parse <$> l) = None ↔ ∀ u, u ∈ l → p (parse u) = false.
Proof.
  split.
  - intros Hfind u Hu. apply (find_none _ _ Hfind).
    apply list_elem_of_In. by apply list_elem_of_fmap_2.
  - intros Hall. destruct (List.find p (parse <$> l)) as [o|] eqn:Hfind; [| done].
    apply find_some in Hfind as [Hin Hp]. apply list_elem_of_In in Hin.
    apply list_elem_of_fmap in Hin as (u & -> & Hu). rewrite (Hall u Hu) in Hp. done.
Qed.

Lemma find_parse_Some (p : object → bool) (l : list record) (o : object) :
  List.find p (parse <$> l) = Some o → ∃ u, u ∈ l ∧ o = parse u ∧ p o = true.
Proof.
  intros Hfind. apply find_some in Hfind as [Hin Hp]. apply list_elem_of_In in Hin.
  apply list_elem_of_fmap in Hin as (u & -> & Hu). by exists u.
Qed.

Lemma user_view_parse (u : record) :
  user_view (parse u)
  = {[ "id" := prop "id" u; "username" := prop "username" u;
       "email" := prop "email" u ]}.
Proof. unfold user_view. by rewrite !get_parse. Qed.

Lemma new_user_record_id e username email password :
  prop "id" (new_user_record e username email password) = str (generateId e).
Proof. unfold new_user_record. rewrite prop_stringify. by vm_compute. Qed.

(** [getUserById] answers [null] exactly when no stored user has an id
    [===] to the one given; otherwise it answers the view of a stored user
    with that id, which has the properties id, username and email and no
    password. *)
Theorem getUserById_redacted (userId : value) (d : disk) :
  (getUserById userId d = None
   ↔ ∀ u, u ∈ read_users d → strict_eq (prop "id" u) userId = false)
  ∧ ∀ view, getUserById userId d = Some view →
      dom view = {[ "id"; "username"; "email" ]}
      ∧ view !! "password" = None
      ∧ ∃ u, u ∈ read_users d ∧ prop "id" u = userId
             ∧ view = {[ "id" := prop "id" u; "username" := prop "username" u;
                         "email" := prop "email" u ]}.
Proof.
  unfold getUserById. rewrite getUsers_read. split.
  - destruct (List.find _ _) as [o|] eqn:Hfind.
    + split; [done |]. intros Hall.
      apply find_parse_Some in Hfind as (u & Hu & -> & Hp).
      cbv beta in Hp. rewrite get_parse, (Hall u Hu) in Hp. done.
    + split; [| done]. intros _ u Hu.
      pose proof (proj1 (find_parse_None _ _) Hfind u Hu) as Hp.
      cbv beta in Hp. by rewrite get_parse in Hp.
  - intros view. destruct (List.find _ _) as [o|] eqn:Hfind; [| done].
    intros [= <-]. apply find_parse_Some in Hfind as (u & Hu & -> & Hp).
    apply strict_eq_true in Hp. rewrite get_parse in Hp. split_and!.
    + apply dom_user_view.
    + apply not_elem_of_dom. rewrite dom_user_view.
      rewrite !elem_of_union, !elem_of_singleton. by intros [[? | ?] | ?].
    + exists u. split_and!; [done | done | apply user_view_parse].
Qed.

Lemma authenticate_after_createUser (e : env) (username email : value)
    (password : string) (d d' : disk) (id : string) :
  createUser e username email password d = (Success id, d') →
  (∀ identifier, identifier = username ∨ identifier = email →
     json_stable identifier = true →
     succeeded (authenticateUser identifier password d') = true)
  ∧ ∀ identifier, identifier = username ∨ identifier = email →
      json_stable identifier = true →
      (∀ u, u ∈ read_users d → ¬ credentials_of identifier password u) →
      authenticateUser identifier password d'
      = Success {[ "id" := str id; "username" := reread username;
                   "email" := reread email ]}.
Proof.
  intros Hcreate.
  pose proof (createUser_cases e username email password d) as H.
  rewrite Hcreate in H.
  destruct H as [[? _] | (Hid & _ & Hfile & _ & _)]; [done |].
  injection Hid as ->.
  set (new := new_user_record e username email password) in *.
  assert (∀ identifier, identifier = username ∨ identifier = email →
            json_stable identifier = true →
            credentials_of identifier password new) as Hcred.
  { intros identifier Hor Hs. split.
    - destruct Hor as [-> | ->]; [left | right].
      + unfold new. rewrite new_user_record_username, reread_stable by done.
        by apply strict_eq_stable.
      + unfold new. rewrite new_user_record_email, reread_stable by done.
        by apply strict_eq_stable.
    - apply new_user_record_password. }
  assert (getUsers d' = (parse <$> read_users d) ++ [parse new]) as Husers.
  { unfold getUsers. rewrite Hfile. by rewrite fmap_app. }
  assert (∀ identifier, identifier = username ∨ identifier = email →
            json_stable identifier = true →
            succeeded (authenticateUser identifier password d') = true) as Hsucc.
  { intros identifier Hor Hs. unfold authenticateUser.
    destruct (List.find _ (getUsers d')) eqn:Hfind; [done |]. exfalso.
    rewrite Husers in Hfind.
    assert (In (parse new) ((parse <$> read_users d) ++ [parse new])) as Hin.
    { apply list_elem_of_In, elem_of_app. right. apply list_elem_of_here. }
    pose proof (find_none _ _ Hfind _ Hin) as Hf. simpl in Hf.
    pose proof (Hcred identifier Hor Hs) as Hc.
    apply authenticate_test in Hc. congruence. }
  split; [exact Hsucc |].
  intros identifier Hor Hs Hnone. unfold authenticateUser. rewrite Husers.
  rewrite find_app_None.
  - simpl. rewrite (proj2 (authenticate_test identifier password new) (Hcred _ Hor Hs)).
    f_equal. rewrite user_view_parse. unfold new.
    by rewrite new_user_record_id, new_user_record_username, new_user_record_email.
  - apply find_parse_None. intros u Hu.
    destruct (_ && _) eqn:Htest; [| done].
    apply authenticate_test in Htest. by destruct (Hnone u Hu).
Qed.

(** After a successful [createUser], [authenticateUser] succeeds with the
    username, and with the email, of the call and the same password, when
    that identifier is a value that is read back as written (a string, in
    particular); and when no user stored before has these credentials, the
    result is the view of the new user: the new id with the username and
    the email as they are read back. *)
Theorem createUser_then_authenticate (e : env) (username email : value)
    (password : string) (d d' : disk) (id : string) :
  createUser e username email password d = (Success id, d') →
  (json_stable username = true →
   succeeded (authenticateUser username password d') = true)
  ∧ (json_stable email = true →
     succeeded (authenticateUser email password d') = true)
  ∧ ∀ identifier, identifier = username ∨ identifier = email →
      json_stable identifier = true →
      (∀ u, u ∈ read_users d → ¬ credentials_of identifier password u) →
      authenticateUser identifier password d'
      = Success {[ "id" := str id; "username" := reread username;
                   "email" := reread email ]}.
Proof.
  intros Hcreate.
  destruct (authenticate_after_createUser _ _ _ _ _ _ _ Hcreate) as [Hsucc Hview].
  split_and!; [apply Hsucc; by left | apply Hsucc; by right | exact Hview].
Qed.

(** After a successful [createUser] that drew an id no stored user has,
    [getUserById] of the new id answers the view of the new user: the new
    id with the username and the email as they are read back. *)
Theorem createUser_then_getUserById (e : env) (username email : value)
    (password : string) (d d' : disk) (id : string) :
  fresh_user_id id d →
  createUser e username email password d = (Success id, d') →
  getUserById (str id) d'
  = Some {[ "id" := str id; "username" := reread username;
            "email" := reread email ]}.
Proof.
  intros Hfresh Hcreate.
  pose proof (createUser_cases e username email password d) as H.
  rewrite Hcreate in H.
  destruct H as [[? _] | (Hid & _ & Hfile & _ & _)]; [done |].
  injection Hid as ->.
  unfold getUserById, getUsers. rewrite Hfile, fmap_app, find_app_None.
  - simpl. rewrite get_parse, new_user_record_id. simpl. rewrite String.eqb_refl.
    f_equal. rewrite user_view_parse.
    by rewrite new_user_record_id, new_user_record_username, new_user_record_email.
  - apply find_parse_None. intros u Hu. apply strict_eq_ne.
    rewrite get_parse. by apply Hfresh.
Qed.

Lemma new_task_record_fields (e : env) (userId title description priority : value) :
  let new := new_task_record e userId title description priority in
  new !! "id" = Some (JStr (generateId e))
  ∧ new !! "userId" = to_json userId
  ∧ new !! "title" = to_json title
  ∧ new !! "description" = to_json (default_param description (str ""))
  ∧ new !! "priority" = to_json (default_param priority (str "medium"))
  ∧ new !! "completed" = Some (JBool false)
  ∧ new !! "createdAt" = Some (JStr (date1 e))
  ∧ new !! "updatedAt" = Some (JStr (date2 e)).
Proof.
  unfold new_task_record. rewrite !lookup_stringify. by split_and!.
Qed.

Lemma new_task_record_props (e : env) (userId title description priority : value) :
  let new := new_task_record e userId title description priority in
  prop "id" new = str (generateId e)
  ∧ prop "userId" new = reread userId
  ∧ prop "title" new = reread title
  ∧ prop "description" new = reread (default_param description (str ""))
  ∧ prop "priority" new = reread (default_param priority (str "medium"))
  ∧ prop "completed" new = boolean false
  ∧ prop "createdAt" new = str (date1 e)
  ∧ prop "updatedAt" new = str (date2 e).
Proof.
  unfold new_task_record. rewrite !prop_stringify. by split_and!.
Qed.

Lemma createTask_success (e : env) (userId title description priority : value)
    (d d' : disk) (id : string) :
  createTask e userId title description priority d = (Success id, d') →
  id = generateId e
  ∧ TASKS_FILE d'
    = Some (read_tasks d ++ [new_task_record e userId title description priority])
  ∧ USERS_FILE d' = USERS_FILE d.
Proof.
  intros Hop.
  pose proof (createTask_cases e userId title description priority d) as H.
  rewrite Hop in H. destruct H as [(_ & ? & _) | (_ & Hid & Hfile & Hu)]; [done |].
  injection Hid as ->. done.
Qed.

(** After a successful [createTask] for a [userId] that is truthy and is
    read back as written (a string, in particular), the listing of that
    user is the listing before followed by the new task, which has the
    drawn id, the owner, and the title, description and priority passed
    (with their defaults) as they are read back, and is not completed; the
    listing of every other user is as before. *)
Theorem createTask_then_getTasks (e : env) (userId title description priority : value)
    (d d' : disk) (id : string) :
  truthy userId = true →
  json_stable userId = true →
  createTask e userId title description priority d = (Success id, d') →
  ∃ task,
    getTasks userId d' = getTasks userId d ++ [task]
    ∧ getTasks undefined d' = getTasks undefined d ++ [task]
    ∧ get "id" task = str id
    ∧ get "userId" task = userId
    ∧ get "title" task = reread title
    ∧ get "description" task = reread (default_param description (str ""))
    ∧ get "priority" task = reread (default_param priority (str "medium"))
    ∧ get "completed" task = boolean false
    ∧ ∀ other, truthy other = true → other ≠ userId →
        getTasks other d' = getTasks other d.
Proof.
  intros Htruthy Hstable Hop.
  destruct (createTask_success _ _ _ _ _ _ _ _ Hop) as (-> & Hfile & _).
  set (new := new_task_record e userId title description priority) in *.
  destruct (new_task_record_props e userId title description priority)
    as (Hid & Hu & Ht & Hd & Hp & Hc & _).
  fold new in Hid, Hu, Ht, Hd, Hp, Hc.
  rewrite reread_stable in Hu by done.
  exists (parse new). rewrite !get_parse.
  split_and!; try done.
  - rewrite !getTasks_scoped by done. rewrite (read_tasks_file _ _ Hfile).
    rewrite fmap_app, List.filter_app. simpl.
    by rewrite get_parse, Hu, strict_eq_stable.
  - rewrite !getTasks_all, (read_tasks_file _ _ Hfile). by rewrite fmap_app.
  - intros other Hother Hne. rewrite !getTasks_scoped by done.
    rewrite (read_tasks_file _ _ Hfile), fmap_app, List.filter_app. simpl.
    rewrite get_parse, Hu.
    rewrite (strict_eq_ne userId other) by done.
    by rewrite app_nil_r.
Qed.

Lemma updated_record_updatedAt (e : env) (data : object) (old : record) :
  updated_record e data old !! "updatedAt" = Some (JStr (date1 e)).
Proof. unfold updated_record. by rewrite lookup_stringify, get_insert_eq. Qed.

(** A successful [updateTask] replaces the first record that has the task
    id and the user id by its merge with the patch: [updatedAt] is the
    time of the call; every other property holds what [JSON.stringify]
    writes for the value of the patch when the patch has the property (the
    property is removed when that value is [undefined]), and keeps its
    value otherwise. *)
Theorem updateTask_merge (e : env) (taskId userId : value) (data : object)
    (d d' : disk) :
  updateTask e taskId userId data d = (Success (), d') →
  ∃ i old new,
    first_match taskId userId (read_tasks d) i old
    ∧ read_tasks d' = <[i := new]> (read_tasks d)
    ∧ new !! "updatedAt" = Some (JStr (date1 e))
    ∧ ∀ k, k ≠ "updatedAt" →
        new !! k = match data !! k with Some v => to_json v | None => old !! k end.
Proof.
  intros Hop.
  pose proof (updateTask_cases e taskId userId data d) as H.
  rewrite Hop in H.
  destruct H as [(? & _) | [(_ & ? & _) | (_ & _ & i & old & Hfm & Hfile & _)]];
    [done | done |].
  exists i, old, (updated_record e data old).
  split_and!; [done | by rewrite (read_tasks_file _ _ Hfile)
              | apply updated_record_updatedAt |].
  intros k Hk. destruct (data !! k) as [v|] eqn:Hdata.
  - by apply updated_record_lookup_patch.
  - by apply updated_record_lookup.
Qed.

(** A successful [toggleTaskCompletion] stores a boolean in [completed],
    the negation of the truthiness of the value that was there, and returns
    it; [updatedAt] is the time of the call and every other property of the
    record is kept. *)
Theorem toggleTaskCompletion_fields (e : env) (taskId userId : value)
    (d d' : disk) (c : bool) :
  toggleTaskCompletion e taskId userId d = (Success c, d') →
  ∃ i old new,
    first_match taskId userId (read_tasks d) i old
    ∧ read_tasks d' = <[i := new]> (read_tasks d)
    ∧ c = negb (truthy (prop "completed" old))
    ∧ new !! "completed" = Some (JBool c)
    ∧ new !! "updatedAt" = Some (JStr (date1 e))
    ∧ ∀ k, k ≠ "completed" → k ≠ "updatedAt" → new !! k = old !! k.
Proof.
  intros Hop.
  pose proof (toggleTaskCompletion_cases e taskId userId d) as H.
  rewrite Hop in H.
  destruct H as [(? & _) | [(_ & ? & _) | (_ & i & old & Hfm & Hr & Hfile & _)]];
    [done | done |].
  injection Hr as ->.
  exists i, old, (toggled_record e old).
  split_and!; [done | by rewrite (read_tasks_file _ _ Hfile) | done
              | apply toggled_record_completed | |].
  - unfold toggled_record. by rewrite lookup_stringify, get_insert_eq.
  - intros k H1 H2. by apply toggled_record_lookup.
Qed.

Lemma no_match_not_found (e : env) (taskId userId : value) (data : object) (d : disk) :
  no_match taskId userId (read_tasks d) →
  updateTask e taskId userId data d = (Failure NotFound, d)
  ∧ deleteTask e taskId userId d = (Failure NotFound, d)
  ∧ toggleTaskCompletion e taskId userId d = (Failure NotFound, d).
Proof.
  intros Hno.
  assert (findIndex (owned_by taskId userId) (getTasks undefined d) = None) as Hnone.
  { rewrite getTasks_all. apply findIndex_None. intros o Ho.
    apply list_elem_of_fmap in Ho as (r & -> & Hr).
    destruct (owned_by taskId userId (parse r)) eqn:Hown; [| done].
    apply owned_by_parse in Hown. by destruct (Hno r Hr). }
  unfold updateTask, deleteTask, toggleTaskCompletion. by rewrite Hnone.
Qed.

Lemma NoDup_delete_notin {A} (l : list A) (i : nat) (x : A) :
  NoDup l → l !! i = Some x → x ∉ delete i l.
Proof.
  intros Hnd Hi. rewrite delete_take_drop.
  rewrite <- (take_drop_middle l i x Hi) in Hnd.
  apply NoDup_app in Hnd as (_ & Hleft & Hright).
  apply NoDup_cons in Hright as [Hright _].
  intros Hin. apply elem_of_app in Hin as [Hin | Hin]; [| done].
  apply (Hleft x Hin). apply list_elem_of_here.
Qed.

Lemma NoDup_delete {A} (l : list A) (i : nat) : NoDup l → NoDup (delete i l).
Proof. intros Hnd. eapply sublist_NoDup; [done | apply sublist_delete]. Qed.

(** In a collection with unique ids, a successful [deleteTask] leaves one
    record fewer, none of which has the task id; the ids stay unique; and
    [updateTask], [deleteTask] and [toggleTaskCompletion] with that task id
    return the NotFound failure afterwards, whoever calls them. *)
Theorem deleteTask_gone (e : env) (taskId userId : value) (d d' : disk) :
  unique_ids (read_tasks d) →
  deleteTask e taskId userId d = (Success (), d') →
  S (length (read_tasks d')) = length (read_tasks d)
  ∧ (∀ t, t ∈ read_tasks d' → prop "id" t ≠ taskId)
  ∧ unique_ids (read_tasks d')
  ∧ ∀ e' userId' data,
      updateTask e' taskId userId' data d' = (Failure NotFound, d')
      ∧ deleteTask e' taskId userId' d' = (Failure NotFound, d')
      ∧ toggleTaskCompletion e' taskId userId' d' = (Failure NotFound, d').
Proof.
  intros Hnd Hop.
  pose proof (deleteTask_cases e taskId userId d) as H.
  rewrite Hop in H.
  destruct H as [(? & _) | [(_ & ? & _) | (_ & _ & i & old & Hfm & Hfile & _)]];
    [done | done |].
  destruct Hfm as (Hold & [Hid _] & _). apply strict_eq_true in Hid.
  rewrite (read_tasks_file _ _ Hfile).
  assert (∀ t, t ∈ delete i (read_tasks d) → prop "id" t ≠ taskId) as Hgone.
  { intros t Ht Heq.
    apply (NoDup_delete_notin _ i (prop "id" old) Hnd).
    - by rewrite list_lookup_fmap, Hold.
    - rewrite <- list_fmap_delete. rewrite Hid, <- Heq.
      by apply (list_elem_of_fmap_2 (prop "id")). }
  split_and!.
  - rewrite length_delete by (by eexists). apply lookup_lt_Some in Hold. lia.
  - done.
  - unfold unique_ids. rewrite list_fmap_delete. by apply NoDup_delete.
  - intros e' userId' data. apply no_match_not_found.
    rewrite (read_tasks_file _ _ Hfile). intros t Ht [Heq _].
    apply strict_eq_true in Heq. by apply (Hgone t).
Qed.

(** The uniqueness of task ids is kept by every operation: by [createTask]
    when the drawn id is that of no stored task, by [updateTask] when the
    patch has no [id] property, by [toggleTaskCompletion] and by
    [deleteTask]. *)
Theorem unique_ids_preserved (e : env) (d : disk) :
  unique_ids (read_tasks d) →
  (∀ userId title description priority,
     fresh_task_id (generateId e) d →
     unique_ids (read_tasks (createTask e userId title description priority d).2))
  ∧ (∀ taskId userId data,
     data !! "id" = None →
     unique_ids (read_tasks (updateTask e taskId userId data d).2))
  ∧ (∀ taskId userId,
     unique_ids (read_tasks (toggleTaskCompletion e taskId userId d).2))
  ∧ (∀ taskId userId,
     unique_ids (read_tasks (deleteTask e taskId userId d).2)).
Proof.
  intros Hnd. split_and!.
  - intros userId title description priority Hfresh.
    pose proof (createTask_cases e userId title description priority d) as H.
    destruct (createTask _ _ _ _ _ _) as [r d']. simpl.
    destruct H as [(_ & _ & ->) | (_ & _ & Hfile & _)]; [done |].
    rewrite (read_tasks_file _ _ Hfile). apply NoDup_snoc_fresh; [done |].
    intros t Ht. rewrite prop_stringify.
    change (prop "id" t ≠ str (generateId e)). by apply Hfresh.
  - intros taskId userId data Hdata.
    pose proof (updateTask_cases e taskId userId data d) as H.
    destruct (updateTask _ _ _ _ _) as [r d']. simpl.
    destruct H as [(_ & -> & _) | [(_ & _ & ->) | (_ & _ & i & old & Hfm & Hfile & _)]];
      [done | done |].
    rewrite (read_tasks_file _ _ Hfile). destruct Hfm as (Hold & _).
    eapply unique_ids_insert; [done | done |]. by apply updated_record_lookup.
  - intros taskId userId.
    pose proof (toggleTaskCompletion_cases e taskId userId d) as H.
    destruct (toggleTaskCompletion _ _ _ _) as [r d']. simpl.
    destruct H as [(_ & -> & _) | [(_ & _ & ->) | (_ & i & old & Hfm & _ & Hfile & _)]];
      [done | done |].
    rewrite (read_tasks_file _ _ Hfile). destruct Hfm as (Hold & _).
    eapply unique_ids_insert; [done | done |]. by apply toggled_record_lookup.
  - intros taskId userId.
    pose proof (deleteTask_cases e taskId userId d) as H.
    destruct (deleteTask _ _ _ _) as [r d']. simpl.
    destruct H as [(_ & -> & _) | [(_ & _ & ->) | (_ & _ & i & old & _ & Hfile & _)]];
      [done | done |].
    rewrite (read_tasks_file _ _ Hfile). unfold unique_ids.
    rewrite list_fmap_delete. by apply NoDup_delete.
Qed.

Lemma getTasks_after_create (e : env) (userId title description priority : value)
    (d d' : disk) (other : value) :
  truthy other = true →
  TASKS_FILE d'
  = Some (read_tasks d ++ [new_task_record e userId title description priority]) →
  getTasks other d'
  = getTasks other d
    ++ (if strict_eq (reread userId) other
        then [parse (new_task_record e userId title description priority)]
        else []).
Proof.
  intros Hother Hfile. rewrite !getTasks_scoped by done.
  rewrite (read_tasks_file _ _ Hfile), fmap_app, List.filter_app. simpl.
  rewrite get_parse.
  by destruct (new_task_record_props e userId title description priority)
    as (_ & -> & _).
Qed.

(** What is read back is a given string exactly when what was written is. *)
Lemma strict_eq_reread_str (v : value) (s : string) :
  strict_eq (reread v) (str s) = strict_eq v (str s).
Proof. by destruct v as [| |b|[n| | |]|s'| |]. Qed.

Lemma filter_partition_length {A} (p : A → bool) (l : list A) :
  (length (List.filter p l) + length (List.filter (λ x, negb (p x)) l)
   = length l)%nat.
Proof.
  induction l as [|x l IH]; simpl; [done |]. destruct (p x); simpl; lia.
Qed.

(** After a successful [createTask] for a [userId] that is truthy and is
    read back as written (a string, in particular), the statistics of that
    user show one task more and one pending task more, the same number of
    completed tasks, and one more under the priority of the new task when
    it is high, medium or low; the statistics of every other user are as
    before. *)
Theorem createTask_stats (e : env) (userId title description priority : value)
    (d d' : disk) (id : string) :
  truthy userId = true →
  json_stable userId = true →
  createTask e userId title description priority d = (Success id, d') →
  let s := getTaskStats userId d in
  let s' := getTaskStats userId d' in
  let given := default_param priority (str "medium") in
  let one (p : string) : Z := if strict_eq given (str p) then 1 else 0 in
  total s' = total s + 1
  ∧ completed s' = completed s
  ∧ pending s' = pending s + 1
  ∧ high (byPriority s') = high (byPriority s) + one "high"
  ∧ medium (byPriority s') = medium (byPriority s) + one "medium"
  ∧ low (byPriority s') = low (byPriority s) + one "low"
  ∧ ∀ other, truthy other = true → other ≠ userId →
      getTaskStats other d' = getTaskStats other d.
Proof.
  intros Htruthy Hstable Hop.
  destruct (createTask_success _ _ _ _ _ _ _ _ Hop) as (_ & Hfile & _).
  destruct (new_task_record_props e userId title description priority)
    as (_ & _ & _ & _ & Hp & Hc & _).
  pose proof (getTasks_after_create e userId title description priority d d'
                userId Htruthy Hfile) as Hget.
  rewrite reread_stable, strict_eq_stable in Hget by done.
  simpl. unfold getTaskStats. rewrite Hget. simpl.
  rewrite !List.filter_app. simpl.
  rewrite !get_parse, Hp, Hc, !strict_eq_reread_str. simpl.
  unfold len. rewrite !length_app. simpl.
  split_and!; try lia.
  - destruct (strict_eq _ (str "high")); simpl; rewrite ?length_app; simpl; lia.
  - destruct (strict_eq _ (str "medium")); simpl; rewrite ?length_app; simpl; lia.
  - destruct (strict_eq _ (str "low")); simpl; rewrite ?length_app; simpl; lia.
  - intros other Hother Hne.
    pose proof (getTasks_after_create e userId title description priority d d'
                  other Hother Hfile) as Hget'.
    rewrite reread_stable, (strict_eq_ne userId other), app_nil_r in Hget' by done.
    by rewrite Hget'.
Qed.

(** The number of tasks that GET /api/dashboard-data selects under each
    filter is the statistic of the same name: [pending], [completed],
    [byPriority.high], [byPriority.medium], [byPriority.low]; under any
    other filter, or none, all the tasks of the user are selected. *)
Theorem filteredTasks_counts (userId : value) (d : disk) :
  let tasks := getTasks userId d in
  let s := getTaskStats userId d in
  len (filteredTasks (str "pending") tasks) = pending s
  ∧ len (filteredTasks (str "completed") tasks) = completed s
  ∧ len (filteredTasks (str "high") tasks) = high (byPriority s)
  ∧ len (filteredTasks (str "medium") tasks) = medium (byPriority s)
  ∧ len (filteredTasks (str "low") tasks) = low (byPriority s)
  ∧ ∀ query_filter,
      js_or query_filter (str "all") ≠ str "pending" →
      js_or query_filter (str "all") ≠ str "completed" →
      js_or query_filter (str "all") ≠ str "high" →
      js_or query_filter (str "all") ≠ str "medium" →
      js_or query_filter (str "all") ≠ str "low" →
      filteredTasks query_filter tasks = tasks
      ∧ len (filteredTasks query_filter tasks) = total s.
Proof.
  simpl. split_and!.
  - unfold filteredTasks, len. simpl.
    pose proof (filter_partition_length
                  (λ task : object, truthy (get "completed" task))
                  (getTasks userId d)) as H. lia.
  - done.
  - unfold filteredTasks, len. simpl. do 2 f_equal.
    apply List.filter_ext. intros task. apply andb_comm.
  - unfold filteredTasks, len. simpl. do 2 f_equal.
    apply List.filter_ext. intros task. apply andb_comm.
  - unfold filteredTasks, len. simpl. do 2 f_equal.
    apply List.filter_ext. intros task. apply andb_comm.
  - intros query_filter H1 H2 H3 H4 H5. unfold filteredTasks.
    rewrite !strict_eq_ne by done. done.
Qed.

(** ** Properties of config.js *)

Lemma chars_trimStart (s : string) : chars (trimStart s) `sublist_of` chars s.
Proof.
  induction s as [|c r IH]; simpl; [done |].
  destruct (isWhiteSpace c); [by apply sublist_cons | done].
Qed.

Lemma chars_trimEnd (s : string) : chars (trimEnd s) `sublist_of` chars s.
Proof.
  induction s as [|c r IH]; simpl; [done |].
  destruct (trimEnd r) as [|c' r'] eqn:Hr.
  - destruct (isWhiteSpace c); simpl.
    + apply sublist_nil_l.
    + apply sublist_skip, sublist_nil_l.
  - simpl. by apply sublist_skip.
Qed.

Lemma chars_strip_angle (s : string) :
  chars (strip_angle s) `sublist_of` chars s ∧ angle_free (strip_angle s).
Proof.
  unfold angle_free. induction s as [|c r [IH1 IH2]]; simpl.
  - split; [done | apply Forall_nil_2].
  - destruct (Ascii.eqb c "<") eqn:E1; simpl.
    + split; [by apply sublist_cons | done].
    + destruct (Ascii.eqb c ">") eqn:E2; simpl.
      * split; [by apply sublist_cons | done].
      * split; [by apply sublist_skip |].
        apply Forall_cons. split; [| done].
        apply Ascii.eqb_neq in E1, E2. done.
Qed.

Lemma trimStart_clean (s : string) :
  (∀ c, head (chars s) = Some c → isWhiteSpace c = false) → trimStart s = s.
Proof.
  destruct s as [|c r]; simpl; [done |]. intros H. by rewrite (H c eq_refl).
Qed.

Lemma trimEnd_clean (s : string) :
  (∀ c, last (chars s) = Some c → isWhiteSpace c = false) → trimEnd s = s.
Proof.
  induction s as [|c r IH]; simpl; [done |]. intros H.
  destruct r as [|c' r'].
  - simpl. by rewrite (H c eq_refl).
  - rewrite IH; [done |]. intros c0 Hc0. apply H. simpl in *. done.
Qed.

Lemma strip_angle_clean (s : string) : angle_free s → strip_angle s = s.
Proof.
  unfold angle_free. induction s as [|c r IH]; simpl; [done |].
  intros H. apply Forall_cons in H as [[H1 H2] Hr].
  apply Ascii.eqb_neq in H1, H2. rewrite H1, H2. simpl. by rewrite IH.
Qed.

(** [sanitizeInput] returns a value that is not a string as it is. Of a
    string it returns a string without [<] and [>], obtained from it by
    removing code units only; a string that has neither [<] nor [>] and
    neither starts nor ends with white space is returned as it is. *)
Theorem sanitizeInput_spec (data : value) :
  ((∀ s, data ≠ str s) → sanitizeInput data = data)
  ∧ ∀ s, data = str s →
      ∃ s', sanitizeInput data = str s'
            ∧ angle_free s'
            ∧ chars s' `sublist_of` chars s
            ∧ (angle_free s → no_outer_space s → s' = s).
Proof.
  split.
  - intros Hns. destruct data as [| | | |s| |]; try done. by destruct (Hns s).
  - intros s ->. exists (strip_angle (trim s)). split_and!.
    + done.
    + apply chars_strip_angle.
    + etrans; [apply chars_strip_angle |]. unfold trim.
      etrans; [apply chars_trimEnd | apply chars_trimStart].
    + intros Hfree [Hhead Hlast]. unfold trim.
      rewrite (trimStart_clean s Hhead), (trimEnd_clean s Hlast).
      by apply strip_angle_clean.
Qed.

Lemma sanitizeInput_angle_free (v : value) : angle_free_value (sanitizeInput v).
Proof.
  intros s Hs. destruct v as [| | | |s0| |]; simpl in Hs; try done.
  injection Hs as <-. apply chars_strip_angle.
Qed.

Lemma sanitizeInput_defined (v : value) : v ≠ undefined → sanitizeInput v ≠ undefined.
Proof. by destruct v. Qed.

Lemma js_or_defined (v : value) (s : string) : js_or v (str s) ≠ undefined.
Proof. unfold js_or. by destruct (truthy v) eqn:Ht; [destruct v |]. Qed.

(** What is read back as a string was written as that string. *)
Lemma reread_str (v : value) (s : string) : reread v = str s → v = str s.
Proof. by destruct v as [| |b|[n| | |]|s'| |]. Qed.

Lemma angle_free_reread (v : value) : angle_free_value v → angle_free_value (reread v).
Proof. intros H s Hs. apply H. by apply reread_str. Qed.

(** ** Properties of the task routes of server.js *)

Lemma others_snoc_own (userId : value) (tasks : list record) (new : record) :
  strict_eq (prop "userId" new) userId = true →
  others userId (tasks ++ [new]) = others userId tasks.
Proof.
  intros Hu. unfold others. rewrite List.filter_app. simpl.
  by rewrite Hu, app_nil_r.
Qed.

Lemma put_patch_keys (title description priority : value) (k : string) :
  k ≠ "title" → k ≠ "description" → k ≠ "priority" →
  ({[ "title" := title; "description" := description; "priority" := priority ]}
     : object) !! k = None.
Proof.
  intros H1 H2 H3. by rewrite !lookup_insert_ne, lookup_singleton_ne.
Qed.

(** Whatever a task route does for the user of the session, the tasks of
    the other users stay in the file as they were, in their order, and the
    user file is not written: this holds for POST /api/tasks (the user id
    of the session being a value that is read back as written, as a string
    is), PUT /api/tasks/:id, DELETE /api/tasks/:id and
    PATCH /api/tasks/:id/toggle, whatever the id and the body. Without a
    truthy user id in the session each of them answers the failure
    'Não autorizado' and leaves the disk as it was. *)
Theorem task_routes_isolation (e : env) (session_userId : value) (d : disk) :
  (json_stable session_userId = true →
   ∀ body,
     let d' := (post_api_tasks e session_userId body d).2 in
     others session_userId (read_tasks d') = others session_userId (read_tasks d)
     ∧ USERS_FILE d' = USERS_FILE d)
  ∧ (∀ id body,
     let d' := (put_api_tasks e session_userId id body d).2 in
     others session_userId (read_tasks d') = others session_userId (read_tasks d)
     ∧ USERS_FILE d' = USERS_FILE d)
  ∧ (∀ id,
     let d' := (delete_api_tasks e session_userId id d).2 in
     others session_userId (read_tasks d') = others session_userId (read_tasks d)
     ∧ USERS_FILE d' = USERS_FILE d)
  ∧ (∀ id,
     let d' := (patch_api_tasks_toggle e session_userId id d).2 in
     others session_userId (read_tasks d') = others session_userId (read_tasks d)
     ∧ USERS_FILE d' = USERS_FILE d)
  ∧ (truthy session_userId = false →
     (∀ body, post_api_tasks e session_userId body d = (Failure "Não autorizado", d))
     ∧ (∀ id body,
          put_api_tasks e session_userId id body d = (Failure "Não autorizado", d))
     ∧ (∀ id, delete_api_tasks e session_userId id d = (Failure "Não autorizado", d))
     ∧ (∀ id,
          patch_api_tasks_toggle e session_userId id d = (Failure "Não autorizado", d))).
Proof.
  split_and!.
  - intros Hstable body. unfold post_api_tasks.
    destruct (truthy session_userId); simpl; [| done].
    destruct (truthy (get "title" body)); simpl; [| done].
    match goal with |- context [createTask e ?u ?t ?ds ?p d] =>
      pose proof (createTask_cases e u t ds p d) as H;
      destruct (createTask e u t ds p d) as [r d'] end.
    destruct H as [(_ & Hr & ->) | (_ & -> & Hfile & Hu)].
    + by destruct r.
    + simpl. split; [| done]. rewrite (read_tasks_file _ _ Hfile).
      apply others_snoc_own. rewrite prop_stringify.
      change (strict_eq (reread session_userId) session_userId = true).
      rewrite reread_stable by done. by apply strict_eq_stable.
  - intros id body. unfold put_api_tasks.
    destruct (truthy session_userId); simpl; [| done].
    match goal with |- context [updateTask e ?t ?u ?data d] =>
      pose proof (updateTask_cases e t u data d) as H;
      destruct (updateTask e t u data d) as [r d'] eqn:Hop end.
    destruct H as [(-> & -> & _) | [(_ & Hr & ->) | (_ & -> & i & old & Hfm & Hfile & Hu)]].
    + done.
    + by destruct r.
    + simpl. split; [| done]. rewrite (read_tasks_file _ _ Hfile).
      destruct Hfm as (Hold & [_ Hown] & _).
      eapply others_replaced; [done | done |].
      rewrite updated_record_lookup; [done | done |].
      by apply put_patch_keys.
  - intros id. unfold delete_api_tasks.
    destruct (truthy session_userId); simpl; [| done].
    pose proof (deleteTask_cases e (str id) session_userId d) as H.
    destruct (deleteTask _ _ _ _) as [r d'].
    destruct H as [(-> & -> & _) | [(_ & Hr & ->) | (_ & -> & i & old & Hfm & Hfile & Hu)]].
    + done.
    + by destruct r.
    + simpl. split; [| done]. rewrite (read_tasks_file _ _ Hfile), delete_take_drop.
      destruct Hfm as (Hold & [_ Hown] & _). by eapply others_removed.
  - intros id. unfold patch_api_tasks_toggle.
    destruct (truthy session_userId); simpl; [| done].
    pose proof (toggleTaskCompletion_cases e (str id) session_userId d) as H.
    destruct (toggleTaskCompletion _ _ _ _) as [r d'].
    destruct H as [(-> & -> & _) | [(_ & Hr & ->) | (_ & i & old & Hfm & -> & Hfile & Hu)]].
    + done.
    + by destruct r.
    + simpl. split; [| done]. rewrite (read_tasks_file _ _ Hfile).
      destruct Hfm as (Hold & [_ Hown] & _).
      eapply others_replaced; [done | done |]. by rewrite toggled_record_lookup.
  - intros Hfalsy. unfold post_api_tasks, put_api_tasks, delete_api_tasks,
      patch_api_tasks_toggle. by rewrite Hfalsy.
Qed.

(** A successful PUT /api/tasks/:id replaces, in the first record with the
    id of the route and the user id of the session, [title] by what
    [JSON.stringify] writes for the sanitized title of the body and
    [priority] by what it writes for its sanitized priority (each is
    removed when the body does not have it), [description] by what it
    writes for the sanitized description (the empty string when the
    description of the body is falsy) and [updatedAt] by the time of the
    call; every other property of the record, and every other record, is
    kept. *)
Theorem put_api_tasks_fields (e : env) (session_userId : value) (id : string)
    (body : object) (d d' : disk) (message : string) :
  put_api_tasks e session_userId id body d = (Success message, d') →
  ∃ i old new,
    first_match (str id) session_userId (read_tasks d) i old
    ∧ read_tasks d' = <[i := new]> (read_tasks d)
    ∧ new !! "title" = to_json (sanitizeInput (get "title" body))
    ∧ new !! "description"
      = to_json (sanitizeInput (js_or (get "description" body) (str "")))
    ∧ new !! "priority" = to_json (sanitizeInput (get "priority" body))
    ∧ new !! "updatedAt" = Some (JStr (date1 e))
    ∧ ∀ k, k ≠ "title" → k ≠ "description" → k ≠ "priority" → k ≠ "updatedAt" →
        new !! k = old !! k.
Proof.
  unfold put_api_tasks. destruct (truthy session_userId); simpl; [| done].
  match goal with |- context [updateTask e ?t ?u ?data d] =>
    pose proof (updateTask_cases e t u data d) as H;
    destruct (updateTask e t u data d) as [r d0] eqn:Hop end.
  destruct H as [(-> & _) | [(_ & Hr & _) | (_ & -> & i & old & Hfm & Hfile & _)]].
  - done.
  - by destruct r.
  - intros [= _ <-]. eexists i, old, _.
    split_and!; [done | by rewrite (read_tasks_file _ _ Hfile) | ..].
    + by apply updated_record_lookup_patch.
    + by apply updated_record_lookup_patch.
    + by apply updated_record_lookup_patch.
    + apply updated_record_updatedAt.
    + intros k H1 H2 H3 H4. apply updated_record_lookup; [done |].
      by apply put_patch_keys.
Qed.

(** A successful POST /api/tasks had a truthy user id in the session and a
    truthy title in the body, and appended one record, not completed, that
    holds what [JSON.stringify] writes for the user id of the session, for
    the sanitized title, for the sanitized description (the empty string
    when the description of the body is falsy) and for the sanitized
    priority (medium when the priority of the body is falsy). None of the
    three, when stored as a string, has a [<] or a [>]. *)
Theorem post_api_tasks_fields (e : env) (session_userId : value) (body : object)
    (d d' : disk) (message : string) :
  post_api_tasks e session_userId body d = (Success message, d') →
  truthy session_userId = true
  ∧ truthy (get "title" body) = true
  ∧ ∃ new,
      read_tasks d' = read_tasks d ++ [new]
      ∧ new !! "id" = Some (JStr (generateId e))
      ∧ new !! "userId" = to_json session_userId
      ∧ new !! "title" = to_json (sanitizeInput (get "title" body))
      ∧ new !! "description"
        = to_json (sanitizeInput (js_or (get "description" body) (str "")))
      ∧ new !! "priority"
        = to_json (sanitizeInput (js_or (get "priority" body) (str "medium")))
      ∧ new !! "completed" = Some (JBool false)
      ∧ angle_free_value (prop "title" new)
      ∧ angle_free_value (prop "description" new)
      ∧ angle_free_value (prop "priority" new).
Proof.
  unfold post_api_tasks. destruct (truthy session_userId); simpl; [| done].
  destruct (truthy (get "title" body)); simpl; [| done].
  match goal with |- context [createTask e ?u ?t ?ds ?p d] =>
    pose proof (new_task_record_fields e u t ds p) as Hf;
    destruct (createTask e u t ds p d) as [r d0] eqn:Hop end.
  destruct r as [id | failure]; [| done].
  intros [= _ <-]. split; [done |]. split; [done |].
  destruct (createTask_success _ _ _ _ _ _ _ _ Hop) as (_ & Hfile & _).
  simpl in Hf. destruct Hf as (Hid & Hu & Ht & Hd & Hp & Hc & _).
  assert (∀ v s, default_param (sanitizeInput (js_or v (str s))) (str "")
                 = sanitizeInput (js_or v (str s))) as Hdef1.
  { intros v s. pose proof (sanitizeInput_defined _ (js_or_defined v s)) as Hne.
    destruct (sanitizeInput (js_or v (str s))); first [done | by destruct Hne]. }
  assert (∀ v s, default_param (sanitizeInput (js_or v (str s))) (str "medium")
                 = sanitizeInput (js_or v (str s))) as Hdef2.
  { intros v s. pose proof (sanitizeInput_defined _ (js_or_defined v s)) as Hne.
    destruct (sanitizeInput (js_or v (str s))); first [done | by destruct Hne]. }
  rewrite Hdef1 in Hd. rewrite Hdef2 in Hp.
  eexists. split; [by rewrite (read_tasks_file _ _ Hfile) |].
  rewrite !prop_lookup, Hid, Hu, Ht, Hd, Hp, Hc.
  split_and!; try done;
    match goal with |- angle_free_value ?v =>
      change v with (reread (sanitizeInput (get "title" body)))
      || change v with
           (reread (sanitizeInput (js_or (get "description" body) (str ""))))
      || change v with
           (reread (sanitizeInput (js_or (get "priority" body) (str "medium"))))
    end; apply angle_free_reread, sanitizeInput_angle_free.
Qed.

(** *** validateEmail *)

Lemma matches_seq_inv (r1 r2 : regex) (s : list ascii) :
  matches (Seq r1 r2) s → ∃ s1 s2, s = s1 ++ s2 ∧ matches r1 s1 ∧ matches r2 s2.
Proof. inversion 1; subst. eauto. Qed.

Lemma matches_alt_inv (r1 r2 : regex) (s : list ascii) :
  matches (Alt r1 r2) s → matches r1 s ∨ matches r2 s.
Proof. inversion 1; subst; auto. Qed.

Lemma matches_class_inv (p : ascii → bool) (s : list ascii) :
  matches (Class p) s → ∃ c, s = [c] ∧ p c = true.
Proof. inversion 1; subst. eauto. Qed.

Lemma nullable_matches (r : regex) : nullable r = true ↔ matches r [].
Proof.
  induction r as [| |p|r1 IH1 r2 IH2|r1 IH1 r2 IH2|r IH]; simpl.
  - split; [done | inversion 1].
  - split; [constructor | done].
  - split; [done | inversion 1].
  - rewrite andb_true_iff, IH1, IH2. split.
    + intros [H1 H2]. by apply (matches_seq _ _ [] []).
    + intros H. apply matches_seq_inv in H as (s1 & s2 & Happ & H1 & H2).
      symmetry in Happ. by apply app_eq_nil in Happ as [-> ->].
  - rewrite orb_true_iff, IH1, IH2. split.
    + intros [H | H]; [by apply matches_alt_l | by apply matches_alt_r].
    + apply matches_alt_inv.
  - split; [constructor | done].
Qed.

Lemma matches_star_cons_inv (r : regex) (c : ascii) (s : list ascii) :
  matches (Star r) (c :: s) →
  ∃ s1 s2, s = s1 ++ s2 ∧ matches r (c :: s1) ∧ matches (Star r) s2.
Proof.
  intros H. remember (Star r) as r0 eqn:Hr0. remember (c :: s) as s0 eqn:Hs0.
  revert s Hs0.
  induction H as [| | | | | |r' s1 s2 H1 _ H2 IH2]; intros t Ht; try done.
  injection Hr0 as ->. destruct s1 as [|c1 s1]; simpl in Ht.
  - by apply IH2.
  - injection Ht as -> <-. by exists s1, s2.
Qed.

Lemma derive_matches (c : ascii) (r : regex) (s : list ascii) :
  matches (derive c r) s ↔ matches r (c :: s).
Proof.
  revert s. induction r as [| |p|r1 IH1 r2 IH2|r1 IH1 r2 IH2|r IH]; intros s; simpl.
  - split; inversion 1.
  - split; inversion 1.
  - destruct (p c) eqn:Hp; split.
    + inversion 1; subst. by constructor.
    + intros H. apply matches_class_inv in H as (c' & [= <- ->] & _). constructor.
    + inversion 1.
    + intros H. apply matches_class_inv in H as (c' & [= <- ->] & ?). congruence.
  - assert (matches (Seq (derive c r1) r2) s
            ↔ ∃ s1 s2, s = s1 ++ s2 ∧ matches r1 (c :: s1) ∧ matches r2 s2) as Hleft.
    { split.
      - intros H. apply matches_seq_inv in H as (s1 & s2 & -> & H1 & H2).
        exists s1, s2. by rewrite <- IH1.
      - intros (s1 & s2 & -> & H1 & H2). constructor; [by apply IH1 | done]. }
    assert (matches (Seq r1 r2) (c :: s)
            ↔ (∃ s1 s2, s = s1 ++ s2 ∧ matches r1 (c :: s1) ∧ matches r2 s2)
              ∨ (matches r1 [] ∧ matches r2 (c :: s))) as Hright.
    { split.
      - intros H. apply matches_seq_inv in H as (s1 & s2 & Happ & H1 & H2).
        destruct s1 as [|c1 s1]; simpl in Happ.
        + right. by subst.
        + injection Happ as -> ->. left. by exists s1, s2.
      - intros [(s1 & s2 & -> & H1 & H2) | [H1 H2]].
        + by apply (matches_seq _ _ (c :: s1) s2).
        + by apply (matches_seq _ _ [] (c :: s)). }
    rewrite Hright. destruct (nullable r1) eqn:Hn.
    + apply nullable_matches in Hn. split.
      * intros H. apply matches_alt_inv in H as [H | H];
          [left; by apply Hleft | right; by rewrite <- IH2].
      * intros [H | [_ H]]; [apply matches_alt_l; by apply Hleft
                            | apply matches_alt_r; by apply IH2].
    + rewrite Hleft. split; [by left |].
      intros [H | [H _]]; [done |]. apply nullable_matches in H. congruence.
  - split; intros H; apply matches_alt_inv in H as [H | H];
      (apply matches_alt_l; by apply IH1) || (apply matches_alt_r; by apply IH2).
  - split.
    + intros H. apply matches_seq_inv in H as (s1 & s2 & -> & H1 & H2).
      apply (matches_star_app _ (c :: s1) s2); [by apply IH | done].
    + intros H. apply matches_star_cons_inv in H as (s1 & s2 & -> & H1 & H2).
      constructor; [by apply IH | done].
Qed.

Lemma regex_test_matches (r : regex) (s : string) :
  regex_test r s = true ↔ matches r (chars s).
Proof.
  revert r. induction s as [|c s IH]; intros r; simpl.
  - apply nullable_matches.
  - rewrite IH. apply derive_matches.
Qed.

Lemma matches_star_class (p : ascii → bool) (s : list ascii) :
  matches (Star (Class p)) s ↔ Forall (λ c, p c = true) s.
Proof.
  split.
  - intros H. remember (Star (Class p)) as r eqn:Hr.
    induction H as [| | | | | |r' s1 s2 H1 _ H2 IH2]; try done.
    injection Hr as ->. apply matches_class_inv in H1 as (c & -> & Hc).
    simpl. apply Forall_cons. auto.
  - induction 1 as [|c s Hc _ IH]; [constructor |].
    apply (matches_star_app _ [c] s); [by constructor | done].
Qed.

Lemma matches_plus_class (p : ascii → bool) (s : list ascii) :
  matches (Plus (Class p)) s ↔ s ≠ [] ∧ Forall (λ c, p c = true) s.
Proof.
  unfold Plus. split.
  - intros H. apply matches_seq_inv in H as (s1 & s2 & -> & H1 & H2).
    apply matches_class_inv in H1 as (c & -> & Hc). simpl. split; [done |].
    apply Forall_cons. split; [done | by apply matches_star_class].
  - intros [Hne Hall]. destruct s as [|c s]; [done |].
    apply Forall_cons in Hall as [Hc Hall].
    apply (matches_seq _ _ [c] s); [by constructor | by apply matches_star_class].
Qed.

Lemma not_space_or_at_true (c : ascii) :
  not_space_or_at c = true ↔ isWhiteSpace c = false ∧ c ≠ "@"%char.
Proof.
  unfold not_space_or_at. rewrite negb_true_iff, orb_false_iff, Ascii.eqb_neq. done.
Qed.

Lemma matches_email_part (s : list ascii) :
  matches (Plus (Class not_space_or_at)) s ↔ email_part s.
Proof.
  rewrite matches_plus_class. unfold email_part.
  split; intros [Hne Hall]; (split; [done |]);
    (eapply Forall_impl; [exact Hall |]); intros c Hc; by apply not_space_or_at_true.
Qed.

(** [validateEmail] accepts exactly the strings of the form
    [a ++ "@" ++ b ++ "." ++ c] where [a], [b] and [c] are non-empty and
    have no white space and no [@] (they may have further dots). *)
Theorem validateEmail_spec (email : string) :
  validateEmail email = true
  ↔ ∃ a b c, chars email = a ++ "@"%char :: b ++ "."%char :: c
             ∧ email_part a ∧ email_part b ∧ email_part c.
Proof.
  unfold validateEmail, emailRegex. rewrite regex_test_matches. split.
  - intros H.
    apply matches_seq_inv in H as (a & s1 & -> & Ha & H).
    apply matches_seq_inv in H as (at_ & s2 & -> & Hat & H).
    apply matches_seq_inv in H as (b & s3 & -> & Hb & H).
    apply matches_seq_inv in H as (dot & c & -> & Hdot & Hc).
    apply matches_class_inv in Hat as (x & -> & Hx). apply Ascii.eqb_eq in Hx as <-.
    apply matches_class_inv in Hdot as (y & -> & Hy). apply Ascii.eqb_eq in Hy as <-.
    exists a, b, c. rewrite <- !matches_email_part. done.
  - intros (a & b & c & -> & Ha & Hb & Hc).
    apply matches_seq; [by apply matches_email_part |].
    apply (matches_seq _ _ ["@"%char]); [constructor; by apply Ascii.eqb_eq |].
    apply matches_seq; [by apply matches_email_part |].
    apply (matches_seq _ _ ["."%char]); [constructor; by apply Ascii.eqb_eq |].
    by apply matches_email_part.
Qed.

(** ** Properties of calculatePasswordStrength (auth.js) *)

Lemma some_class_holds (password : string) :
  password ≠ EmptyString →
  test_class lower_case password || test_class upper_case password
  || test_class digit password || test_class not_alphanumeric password = true.
Proof.
  destruct password as [|c r]; [done |]. intros _. simpl.
  unfold not_alphanumeric.
  destruct (lower_case c), (upper_case c), (digit c); simpl;
    rewrite ?orb_true_r; done.
Qed.

Lemma test_class_append (p : ascii → bool) (s t : string) :
  test_class p (s +:+ t) = test_class p s || test_class p t.
Proof.
  induction s as [|c s IH]; simpl; [done |]. by rewrite IH, orb_assoc.
Qed.

Lemma length_append (s t : string) :
  String.length (s +:+ t) = (String.length s + String.length t)%nat.
Proof. induction s as [|c s IH]; simpl; [done |]. by rewrite IH. Qed.

(** [calculatePasswordStrength] of a non-empty password is the entry of
    [strengths] at its score, which is between 1 and 5: the fallback is
    never used and the text is never 'Muito fraca'; the text is
    'Muito forte' exactly when the password has at least 8 code units, a
    lower-case letter, an upper-case letter, a digit and another character.
    Appending to a password never lowers its score. *)
Theorem calculatePasswordStrength_spec (password : string) :
  password ≠ EmptyString →
  let score := password_score password in
  let text := (calculatePasswordStrength password).1 in
  (1 ≤ score ≤ 5)%nat
  ∧ strengths !! score = Some (calculatePasswordStrength password)
  ∧ text ≠ "Muito fraca"
  ∧ (text = "Muito forte"
     ↔ (8 ≤ String.length password)%nat
       ∧ test_class lower_case password = true
       ∧ test_class upper_case password = true
       ∧ test_class digit password = true
       ∧ test_class not_alphanumeric password = true)
  ∧ ∀ more, (score ≤ password_score (password +:+ more))%nat.
Proof.
  intros Hne. pose proof (some_class_holds password Hne) as Hsome.
  assert ((String.length password =? 0)%nat = false) as Hlen.
  { destruct password; [done | by simpl]. }
  unfold calculatePasswordStrength, password_score. rewrite Hlen.
  split; [| split; [| split; [| split]]].
  - destruct (8 <=? _)%nat, (test_class lower_case _), (test_class upper_case _),
      (test_class digit _), (test_class not_alphanumeric _); simpl in *; (done || lia).
  - destruct (8 <=? _)%nat, (test_class lower_case _), (test_class upper_case _),
      (test_class digit _), (test_class not_alphanumeric _); simpl in *; done.
  - destruct (8 <=? _)%nat, (test_class lower_case _), (test_class upper_case _),
      (test_class digit _), (test_class not_alphanumeric _); simpl in *; done.
  - rewrite <- Nat.leb_le.
    destruct (8 <=? _)%nat, (test_class lower_case _), (test_class upper_case _),
      (test_class digit _), (test_class not_alphanumeric _); simpl in *;
      split; (done || by intros (? & ? & ? & ? & ?)).
  - intros more. rewrite !test_class_append, length_append.
    assert (∀ a b : bool, ((if a then 1 else 0) ≤ (if a || b then 1 else 0))%nat) as Hb.
    { intros [] []; simpl; lia. }
    pose proof (Hb (test_class lower_case password) (test_class lower_case more)).
    pose proof (Hb (test_class upper_case password) (test_class upper_case more)).
    pose proof (Hb (test_class digit password) (test_class digit more)).
    pose proof (Hb (test_class not_alphanumeric password)
                  (test_class not_alphanumeric more)).
    assert ((if 8 <=? String.length password then 1 else 0)
            ≤ (if 8 <=? String.length password + String.length more then 1 else 0))%nat.
    { destruct (8 <=? String.length password)%nat eqn:E1;
        destruct (8 <=? String.length password + String.length more)%nat eqn:E2;
        try lia. apply Nat.leb_le in E1. apply Nat.leb_gt in E2. lia. }
    lia.
Qed.

(** ** Properties of Database.init *)

(** When [init] returns, the data directory and both files exist; a file
    that existed, readable or not, is as it was, and a file that was missing
    holds the empty array; what [Database] reads is the same before and
    after; and a second [init] changes nothing. On a writable file system
    [init] always returns; on one that is not, it returns only when nothing
    is missing. *)
Theorem init_spec (writable : bool) (fs : filesystem) :
  (∀ fs', init writable fs = Some fs' →
     data_dir fs' = true
     ∧ existsSync (users_json fs') = true
     ∧ existsSync (tasks_json fs') = true
     ∧ users_json fs' = (if existsSync (users_json fs) then users_json fs else Holds [])
     ∧ tasks_json fs' = (if existsSync (tasks_json fs) then tasks_json fs else Holds [])
     ∧ getUsers (mount fs') = getUsers (mount fs)
     ∧ (∀ userId, getTasks userId (mount fs') = getTasks userId (mount fs))
     ∧ ∀ writable', init writable' fs' = Some fs')
  ∧ (writable = true → is_Some (init writable fs))
  ∧ (writable = false →
     (is_Some (init writable fs)
      ↔ data_dir fs = true ∧ existsSync (users_json fs) = true
        ∧ existsSync (tasks_json fs) = true)).
Proof.
  destruct fs as [dir users tasks]. split_and!.
  - intros fs' Hinit. unfold init in Hinit. simpl in Hinit.
    destruct dir, writable, users, tasks; simpl in Hinit;
      try discriminate Hinit; injection Hinit as <-; simpl;
      (split_and!; try done; try (intros userId; unfold getTasks; simpl;
                                   by destruct (truthy _));
       by intros []).
  - intros ->. unfold init. by destruct dir, users, tasks; simpl.
  - intros ->. unfold init.
    destruct dir, users, tasks; simpl; split;
      try (by intros [? [=]]); try (by intros (? & ? & ?)); by intros _.
Qed.

(** ** Properties of the authentication routes of server.js *)

Lemma post_auth_register_inv (e : env) (body : object) (d d' : disk)
    (message : string) :
  post_auth_register e body d = (Json (Success message), d') →
  ∃ email password,
    truthy (get "username" body) = true
    ∧ truthy (get "email" body) = true
    ∧ to_string (get "email" body) = Some email
    ∧ validateEmail email = true
    ∧ get "password" body = str password
    ∧ (6 ≤ String.length password)%nat
    ∧ get "confirmPassword" body = str password
    ∧ createUser e (sanitizeInput (get "username" body))
        (sanitizeInput (get "email" body)) password d
      = (Success (generateId e), d').
Proof.
  unfold post_auth_register.
  destruct (truthy (get "username" body)) eqn:Hu; simpl; [| done].
  destruct (truthy (get "email" body)) eqn:He; simpl; [| done].
  destruct (truthy (get "password" body)) eqn:Hp; simpl; [| done].
  destruct (truthy (get "confirmPassword" body)) eqn:Hc; simpl; [| done].
  destruct (to_string (get "email" body)) as [email|] eqn:Hemail; [| done].
  destruct (validateEmail email) eqn:Hvalid; simpl; [| done].
  destruct (less_than (length_of (get "password" body)) 6) as [[|]|] eqn:Hlen;
    [done | | done].
  destruct (strict_eq (get "password" body) (get "confirmPassword" body)) eqn:Heq;
    simpl; [| done].
  apply strict_eq_true in Heq.
  destruct (get "password" body) as [| | | |password| |] eqn:Hpassword;
    try (by destruct (List.find _ _)).
  pose proof (createUser_cases e (sanitizeInput (get "username" body))
                (sanitizeInput (get "email" body)) password d) as H.
  destruct (createUser _ _ _ _ _) as [r d0] eqn:Hop.
  destruct H as [[Hr _] | (-> & _)]; [by destruct r |].
  intros [= _ <-]. exists email, password.
  unfold less_than in Hlen. simpl in Hlen. injection Hlen as Hlen.
  apply Z.ltb_ge in Hlen. symmetry in Heq.
  split_and!; try done. lia.
Qed.

(** A successful POST /auth/register had a truthy username, an email whose
    string (the email itself, when it is a string) is accepted by
    [validateEmail], a password that is a string of at least 6 code units
    and a confirmation equal to it; it appended to the user file the record
    of the sanitized username, the sanitized email and the digest of the
    password, as [JSON.stringify] writes them. *)
Theorem post_auth_register_success (e : env) (body : object) (d d' : disk)
    (message : string) :
  post_auth_register e body d = (Json (Success message), d') →
  ∃ email password,
    truthy (get "username" body) = true
    ∧ to_string (get "email" body) = Some email
    ∧ validateEmail email = true
    ∧ get "password" body = str password
    ∧ (6 ≤ String.length password)%nat
    ∧ get "confirmPassword" body = str password
    ∧ USERS_FILE d'
      = Some (read_users d
              ++ [new_user_record e (sanitizeInput (get "username" body))
                    (sanitizeInput (get "email" body)) password])
    ∧ TASKS_FILE d' = TASKS_FILE d.
Proof.
  intros Hreg.
  destruct (post_auth_register_inv _ _ _ _ _ Hreg)
    as (email & password & Hu & Het & He & Hv & Hp & Hl & Hc & Hcreate).
  exists email, password.
  pose proof (createUser_cases e (sanitizeInput (get "username" body))
                (sanitizeInput (get "email" body)) password d) as H.
  rewrite Hcreate in H. destruct H as [[? _] | (_ & _ & Hfile & Ht & _)]; [done |].
  by split_and!.
Qed.

(** A POST /auth/register that does not answer success leaves both files
    as they were, and it does not answer success when the password is not
    a string: it then answers a failure, or throws in [hashPassword]. *)
Theorem post_auth_register_failure (e : env) (body : object) (d : disk) :
  let '(r, d') := post_auth_register e body d in
  ((∀ message, r ≠ Json (Success message)) → d' = d)
  ∧ ((∀ password, get "password" body ≠ str password) →
     (∀ message, r ≠ Json (Success message)) ∧ d' = d).
Proof.
  destruct (post_auth_register e body d) as [r d'] eqn:Hreg.
  assert ((∀ message, r ≠ Json (Success message)) → d' = d) as Hframe.
  { revert Hreg. unfold post_auth_register.
    destruct (_ || _); [by intros [= <- <-] |].
    destruct (to_string _); [| by intros [= <- <-]].
    destruct (negb (validateEmail _)); [by intros [= <- <-] |].
    destruct (less_than _ _) as [[|]|]; try (by intros [= <- <-]).
    destruct (negb (strict_eq _ _)); [by intros [= <- <-] |].
    destruct (get "password" body) as [| | | |password| |];
      try (by destruct (List.find _ _); intros [= <- <-]).
    pose proof (createUser_cases e (sanitizeInput (get "username" body))
                  (sanitizeInput (get "email" body)) password d) as H.
    destruct (createUser _ _ _ _ _) as [r0 d0].
    destruct H as [[Hr ->] | (-> & _)].
    - by destruct r0; intros [= <- <-].
    - intros [= <- <-] Hne. by destruct (Hne _ eq_refl). }
  split; [exact Hframe |].
  intros Hpassword.
  assert (∀ message, r ≠ Json (Success message)) as Hne.
  { intros message ->.
    destruct (post_auth_register_inv _ _ _ _ _ Hreg)
      as (email & password & _ & _ & _ & _ & Hp & _).
    by destruct (Hpassword password). }
  split; [exact Hne | by apply Hframe].
Qed.

Lemma sanitizeInput_stable (v : value) :
  json_stable v = true → json_stable (sanitizeInput v) = true.
Proof. by destruct v. Qed.

(** After a successful POST /auth/register, POST /auth/login with the same
    password and the username, or the email, of the registration body
    answers success when the session is saved, provided that identifier is
    a value that is read back as written (a string, in particular); and
    when no user stored before the registration has these credentials, the
    session gets the id and the username of the new user. *)
Theorem register_then_login (e : env) (body : object) (d d' : disk)
    (message : string) (identifier : value) :
  post_auth_register e body d = (Json (Success message), d') →
  identifier = get "username" body ∨ identifier = get "email" body →
  json_stable identifier = true →
  let login : object :=
    {[ "username" := identifier; "password" := get "password" body ]} in
  (post_auth_login true login d').1 = Json (Success "/dashboard")
  ∧ ((∀ u password, u ∈ read_users d → get "password" body = str password →
        ¬ credentials_of (sanitizeInput identifier) password u) →
     (post_auth_login true login d').2
     = Some (str (generateId e), reread (sanitizeInput (get "username" body)))).
Proof.
  intros Hreg Hor Hstable.
  destruct (post_auth_register_inv _ _ _ _ _ Hreg)
    as (email & password & Hu & Het & He & Hv & Hp & Hl & Hc & Hcreate).
  destruct (authenticate_after_createUser _ _ _ _ _ _ _ Hcreate) as [Hsucc Hview].
  assert (truthy identifier = true) as Hid.
  { by destruct Hor as [-> | ->]. }
  assert (sanitizeInput identifier = sanitizeInput (get "username" body)
          ∨ sanitizeInput identifier = sanitizeInput (get "email" body)) as Hor'.
  { destruct Hor as [-> | ->]; [by left | by right]. }
  pose proof (sanitizeInput_stable _ Hstable) as Hstable'.
  simpl. unfold post_auth_login.
  assert (∀ v w : value,
            get "username" ({[ "username" := v; "password" := w ]} : object) = v
            ∧ get "password" ({[ "username" := v; "password" := w ]} : object) = w)
    as Hget.
  { intros v w. unfold get.
    by rewrite lookup_insert_eq, lookup_insert_ne, lookup_singleton_eq. }
  destruct (Hget identifier (get "password" body)) as [-> ->].
  assert (truthy (str password) = true) as Htp.
  { destruct password; [simpl in Hl; lia | done]. }
  rewrite Hid, Hp, Htp. cbn [negb orb]. split.
  - pose proof (Hsucc _ Hor' Hstable') as Hs.
    by destruct (authenticateUser (sanitizeInput identifier) password d').
  - intros Hnone.
    rewrite (Hview _ Hor' Hstable'); [| intros u Hu0; by apply Hnone].
    simpl. do 2 f_equal.
Qed.

(** POST /auth/login assigns a user to the session only when the password
    is a string and some stored user has the sanitized identifier as
    username or email and the digest of the password as stored digest; the
    session then gets the id and the username of such a user. *)
Theorem login_session_sound (session_saved : bool) (body : object) (d : disk)
    (r : response) (userId username : value) :
  post_auth_login session_saved body d = (r, Some (userId, username)) →
  ∃ password u,
    get "password" body = str password
    ∧ u ∈ read_users d
    ∧ credentials_of (sanitizeInput (get "username" body)) password u
    ∧ userId = prop "id" u
    ∧ username = prop "username" u.
Proof.
  unfold post_auth_login.
  destruct (negb (truthy (get "username" body)) || negb (truthy (get "password" body)));
    [done |].
  destruct (get "password" body) as [| | | |password| |] eqn:Hp;
    try (by destruct (existsb _ _)).
  unfold authenticateUser. rewrite getUsers_read.
  destruct (List.find _ _) as [o|] eqn:Hfind; [| done].
  apply find_parse_Some in Hfind as (u & Hu & -> & Htest).
  apply authenticate_test in Htest.
  intros Hres. exists password, u.
  assert (Some (get "id" (user_view (parse u)), get "username" (user_view (parse u)))
          = Some (userId, username)) as Hs.
  { simpl in Hres. destruct session_saved; congruence. }
  rewrite user_view_parse in Hs. injection Hs as <- <-.
  split_and!; done.
Qed.

End Database.

(** ** The claims at concrete inputs *)

Example sanitizeInput_examples :
  sanitizeInput (str "  a b  ") = str "a b"
  ∧ sanitizeInput (str " <b>x</b> ") = str "bx/b"
  ∧ sanitizeInput (str "< >") = str " "
  ∧ sanitizeInput (VNum (Fin 7)) = VNum (Fin 7)
  ∧ sanitizeInput (VArr [str " <a> "]) = VArr [str " <a> "]
  ∧ sanitizeInput undefined = undefined.
Proof. repeat split; reflexivity. Qed.

(** What is written and read back: a number that is not finite comes back
    as [null], a property holding [undefined] is left out, an array
    element holding [undefined] comes back as [null]. *)
Example reread_examples :
  reread (VNum PosInfinity) = null
  ∧ reread (VNum NaN) = null
  ∧ reread undefined = undefined
  ∧ reread (VArr [undefined; str "a"]) = VArr [null; str "a"]
  ∧ reread (str "a") = str "a"
  ∧ strict_eq (VArr [str "a"]) (VArr [str "a"]) = false
  ∧ truthy (VNum PosInfinity) = true
  ∧ truthy (VArr []) = true.
Proof. repeat split; reflexivity. Qed.

(** Bob cannot update, delete or toggle the task of alice. *)
Lemma ownership_isolation_witness :
  updateTask (sample_env "x" true) (prop "id" task_alice) (str "bob")
    {[ "title" := str "mine" ]} disk_alice = (Failure NotFound, disk_alice)
  ∧ deleteTask (sample_env "x" true) (prop "id" task_alice) (str "bob") disk_alice
    = (Failure NotFound, disk_alice)
  ∧ toggleTaskCompletion (sample_env "x" true) (prop "id" task_alice) (str "bob")
      disk_alice
    = (Failure NotFound, disk_alice).
Proof.
  apply (ownership_isolation _ disk_alice [task_alice] task_alice (str "alice")).
  - reflexivity.
  - apply NoDup_singleton.
  - apply list_elem_of_here.
  - reflexivity.
  - discriminate.
Defined.

(** C3, where the code departs from the claim. [createUser] compares the
    username and the email it is given with the stored ones, and stores
    what [JSON.stringify] writes for them. POST /auth/register with the
    username [1e400], which is read as [Infinity] and written as [null],
    succeeds twice with two different emails: two stored users share the
    username [null]. With the email [['eve@example.org']], an array whose
    string passes [validateEmail], it succeeds twice with two different
    usernames: two stored users share the email. *)
Theorem createUser_duplicates (sha256_hex : string → string)
    (StringToNumber : string → number) :
  let register := post_auth_register sha256_hex StringToNumber in
  let body (username email : value) : object :=
    {[ "username" := username; "email" := email;
       "password" := str "s3cret!"; "confirmPassword" := str "s3cret!" ]} in
  let created :=
    Json (Success "Usuário criado com sucesso! Faça login para continuar.") in
  (let '(r1, d1) :=
     register (sample_env "u1" true)
       (body (VNum PosInfinity) (str "ana@example.org")) fresh_disk in
   let '(r2, d2) :=
     register (sample_env "u2" true)
       (body (VNum PosInfinity) (str "bob@example.org")) d1 in
   r1 = created ∧ r2 = created
   ∧ prop "id" <$> read_users d2 = [str "u1"; str "u2"]
   ∧ prop "username" <$> read_users d2 = [null; null]
   ∧ ¬ users_unique (read_users d2))
  ∧ (let '(r1, d1) :=
       register (sample_env "u1" true)
         (body (str "eve") (VArr [str "eve@example.org"])) fresh_disk in
     let '(r2, d2) :=
       register (sample_env "u2" true)
         (body (str "eva") (VArr [str "eve@example.org"])) d1 in
     r1 = created ∧ r2 = created
     ∧ prop "username" <$> read_users d2 = [str "eve"; str "eva"]
     ∧ prop "email" <$> read_users d2
       = [VArr [str "eve@example.org"]; VArr [str "eve@example.org"]]
     ∧ ¬ users_unique (read_users d2)).
Proof.
  split.
  - vm_compute. split_and!; try reflexivity.
    intros [Hn _]. apply NoDup_cons in Hn as [Hn _]. apply Hn, list_elem_of_here.
  - vm_compute. split_and!; try reflexivity.
    intros [_ He]. apply NoDup_cons in He as [He _]. apply He, list_elem_of_here.
Qed.

(** After ana has registered, her username and her email are taken. *)
Lemma createUser_unique_stable_witness :
  let d := (createUser sample_digest (sample_env "u1" true)
              (str "ana") (str "ana@example.org") "s3cret!" fresh_disk).2 in
  users_unique (read_users d)
  ∧ createUser sample_digest (sample_env "u2" true)
      (str "ana") (str "other@example.org") "hunter22" d = (Failure Conflict, d)
  ∧ createUser sample_digest (sample_env "u2" true)
      (str "Ana") (str "ana@example.org") "hunter22" d = (Failure Conflict, d).
Proof.
  intros d.
  assert (reachable sample_digest d) as Hreach.
  { apply reachable_createUser; [reflexivity | reflexivity |].
    apply reachable_init. reflexivity. }
  destruct (createUser_unique_stable sample_digest d Hreach) as [Huniq Hconflict].
  pose (u := new_user_record sample_digest (sample_env "u1" true)
               (str "ana") (str "ana@example.org") "s3cret!").
  assert (u ∈ read_users d) as Hu by apply list_elem_of_here.
  split_and!; [exact Huniq | |].
  - apply (Hconflict (sample_env "u2" true) (str "ana") (str "other@example.org")
             "hunter22" u Hu eq_refl eq_refl).
    left. reflexivity.
  - apply (Hconflict (sample_env "u2" true) (str "Ana") (str "ana@example.org")
             "hunter22" u Hu eq_refl eq_refl).
    right. reflexivity.
Defined.

(** Usernames and emails that differ in case only do not collide. *)
Example createUser_case_sensitive :
  let d := (createUser sample_digest (sample_env "u1" true)
              (str "ana") (str "ana@example.org") "s3cret!" fresh_disk).2 in
  (createUser sample_digest (sample_env "u2" true)
     (str "Ana") (str "Ana@example.org") "hunter22" d).1 = Success "u2".
Proof. reflexivity. Qed.

(** Ana logs in by username or by email with her password, and with
    nothing else. *)
Lemma authenticate_spec_witness :
  let d := (createUser sample_digest (sample_env "u1" true)
              (str "ana") (str "ana@example.org") "s3cret!" fresh_disk).2 in
  succeeded (authenticateUser sample_digest (str "ana") "s3cret!" d) = true
  ∧ succeeded (authenticateUser sample_digest (str "ana@example.org") "s3cret!" d) = true
  ∧ authenticateUser sample_digest (str "ana") "wrong" d = Failure Unauthorized
  ∧ authenticateUser sample_digest (str "bob") "s3cret!" d = Failure Unauthorized.
Proof.
  intros d.
  pose (u := new_user_record sample_digest (sample_env "u1" true)
               (str "ana") (str "ana@example.org") "s3cret!").
  assert (read_users d = [u]) as Hd by reflexivity.
  assert (prop "username" u = str "ana" ∧ prop "email" u = str "ana@example.org"
          ∧ prop "password" u = str (sample_digest "s3cret!")) as (Hn & Hm & Hp).
  { split_and!; reflexivity. }
  split_and!.
  - apply (proj1 (authenticate_spec sample_digest d (str "ana") "s3cret!") u).
    + rewrite Hd. apply list_elem_of_here.
    + split; [left; reflexivity | exact Hp].
  - apply (proj1 (authenticate_spec sample_digest d (str "ana@example.org") "s3cret!") u).
    + rewrite Hd. apply list_elem_of_here.
    + split; [right; reflexivity | exact Hp].
  - apply (proj1 (proj2 (authenticate_spec sample_digest d (str "ana") "wrong"))).
    intros u' Hu' [_ Hpw]. rewrite Hd in Hu'. apply list_elem_of_singleton in Hu' as ->.
    rewrite Hp in Hpw. discriminate.
  - apply (proj1 (proj2 (authenticate_spec sample_digest d (str "bob") "s3cret!"))).
    intros u' Hu' [Hid _]. rewrite Hd in Hu'. apply list_elem_of_singleton in Hu' as ->.
    rewrite Hn, Hm in Hid. by destruct Hid.
Defined.

(** The statistics of alice, who has one open task of high priority. *)
Lemma stats_consistency_witness :
  let s := getTaskStats (str "alice") disk_alice in
  total s = completed s + pending s
  ∧ high (byPriority s) + medium (byPriority s) + low (byPriority s) <= pending s
  ∧ high (byPriority s) = incomplete_with_priority (str "alice") "high" (read_tasks disk_alice)
  ∧ high (byPriority s) = 1.
Proof.
  intros s.
  destruct (stats_consistency (str "alice") disk_alice) as (H1 & H2 & H3).
  destruct (H3 eq_refl) as (Hh & _ & _).
  split_and!; [exact H1 | exact H2 | exact Hh | reflexivity].
Defined.

(** Unreadable files read as empty; a failed write is reported. *)
Lemma persistence_failures_witness :
  getUsers unreadable_disk = []
  ∧ getTasks (str "alice") unreadable_disk = []
  ∧ succeeded (createTask (sample_env "t2" false) (str "alice") (str "Walk dog")
                 undefined undefined disk_alice).1 = false
  ∧ succeeded (toggleTaskCompletion (sample_env "x" false) (str "t1") (str "alice")
                 disk_alice).1 = false.
Proof.
  destruct (persistence_failures sample_digest unreadable_disk) as (Hu & Ht & _).
  destruct (persistence_failures sample_digest disk_alice) as (_ & _ & _ & Hw).
  destruct (Hw (sample_env "t2" false) eq_refl) as (_ & Hcreate & _).
  destruct (Hw (sample_env "x" false) eq_refl) as (_ & _ & _ & _ & Htoggle).
  split_and!.
  - apply (Hu eq_refl).
  - apply (Ht eq_refl).
  - apply Hcreate.
  - apply Htoggle.
Defined.

(** Alice completes her task and reopens it. *)
Lemma toggle_twice_witness :
  ∃ d1 d2 T1 T2,
    toggleTaskCompletion (sample_env "x" true) (str "t1") (str "alice") disk_alice
    = (Success (negb false), d1)
    ∧ read_tasks d1 !! 0%nat = Some T1
    ∧ T1 !! "completed" = Some (JBool (negb false))
    ∧ toggleTaskCompletion (sample_env "y" true) (str "t1") (str "alice") d1
      = (Success false, d2)
    ∧ read_tasks d2 !! 0%nat = Some T2
    ∧ T2 !! "completed" = Some (JBool false).
Proof.
  apply (toggle_twice _ _ disk_alice [task_alice] 0 task_alice false).
  - reflexivity.
  - apply NoDup_singleton.
  - reflexivity.
  - split; reflexivity.
  - reflexivity.
  - reflexivity.
  - reflexivity.
Defined.

(** Bob creates a task next to the task of alice; alice deletes hers. *)
Lemma mutation_frame_witness :
  let e := sample_env "t2" true in
  let created := (createTask e (str "bob") (str "Walk dog") undefined undefined
                    disk_alice).2 in
  let deleted := (deleteTask e (str "t1") (str "alice") disk_alice).2 in
  ((∃ new, read_tasks created = read_tasks disk_alice ++ [new])
   ∧ USERS_FILE created = USERS_FILE disk_alice)
  ∧ (∃ i old, first_match (str "t1") (str "alice") (read_tasks disk_alice) i old
              ∧ removed_at i (read_tasks disk_alice) (read_tasks deleted))
  ∧ read_tasks deleted = [].
Proof.
  intros e created deleted. split; [| split].
  - apply (proj1 (mutation_frame e disk_alice created)
             (str "bob") (str "Walk dog") undefined undefined "t2").
    reflexivity.
  - apply (proj2 (proj2 (proj2 (mutation_frame e disk_alice deleted)))
             (str "t1") (str "alice")).
    reflexivity.
  - reflexivity.
Defined.

(** C4, counterexample. A patch with [id] and [userId] properties replaces
    both: the task [t1] of alice becomes the task [t9] of mallory. *)
Lemma update_overwrites_identity_counterexample :
  let '(r, d') :=
    updateTask (sample_env "x" true) (str "t1") (str "alice")
      {[ "id" := str "t9"; "userId" := str "mallory" ]} disk_alice in
  r = Success ()
  ∧ stored disk_alice 0 "id" = str "t1"
  ∧ stored disk_alice 0 "userId" = str "alice"
  ∧ stored d' 0 "id" = str "t9"
  ∧ stored d' 0 "userId" = str "mallory"
  ∧ stored d' 0 "id" ≠ stored disk_alice 0 "id"
  ∧ stored d' 0 "userId" ≠ stored disk_alice 0 "userId".
Proof. vm_compute. split_and!; try reflexivity; discriminate. Qed.

(** Alice renames her task and lowers its priority. *)
Lemma update_preserves_identity_witness :
  let d' := (updateTask (sample_env "x" true) (str "t1") (str "alice")
               {[ "title" := str "Buy oat milk"; "priority" := str "low" ]}
               disk_alice).2 in
  (length (read_tasks d') = length (read_tasks disk_alice)
   ∧ ∀ j t, read_tasks disk_alice !! j = Some t →
       ∃ t', read_tasks d' !! j = Some t'
             ∧ t' !! "id" = t !! "id" ∧ t' !! "userId" = t !! "userId")
  ∧ stored d' 0 "title" = str "Buy oat milk"
  ∧ stored d' 0 "userId" = str "alice".
Proof.
  intros d'. split; [| split; reflexivity].
  apply (update_preserves_identity (sample_env "x" true) (str "t1") (str "alice")
           {[ "title" := str "Buy oat milk"; "priority" := str "low" ]} disk_alice d').
  - reflexivity.
  - reflexivity.
  - reflexivity.
Defined.

(** C8, counterexample. POST /api/tasks with the priority ['urgent']
    succeeds and stores a task whose priority is ['urgent']. *)
Lemma priority_unvalidated_counterexample :
  let '(r, d') :=
    post_api_tasks (sample_env "t2" true) (str "alice")
      {[ "title" := str "Pay rent"; "priority" := str "urgent" ]} fresh_disk in
  r = Success "Tarefa criada com sucesso!"
  ∧ stored d' 0 "priority" = str "urgent"
  ∧ ¬ valid_priority (stored d' 0 "priority").
Proof.
  vm_compute. split_and!; [reflexivity | reflexivity |].
  intros [H | [H | H]]; discriminate H.
Qed.

(** Four calls that pass no priority or a valid one. *)
Lemma priority_invariant_witness :
  let calls :=
    [ CreateTask (sample_env "t1" true) (str "alice") (str "Buy milk") undefined undefined;
      UpdateTask (sample_env "x" true) (str "t1") (str "alice")
        {[ "title" := str "Buy oat milk"; "priority" := str "low" ]};
      CreateTask (sample_env "t2" true) (str "bob") (str "Pay rent") (str "") (str "high");
      ToggleTaskCompletion (sample_env "y" true) (str "t1") (str "alice") ] in
  priorities_valid (read_tasks (run calls fresh_disk))
  ∧ stored (run calls fresh_disk) 0 "priority" = str "low"
  ∧ stored (run calls fresh_disk) 1 "priority" = str "high".
Proof.
  intros calls. split_and!; [| reflexivity | reflexivity].
  apply (proj1 (priority_invariant calls fresh_disk (Forall_nil_2 _)
    ltac:(repeat apply Forall_cons_2; try apply Forall_nil_2; simpl;
          [ by left
          | right; eexists; split; [reflexivity | by left]
          | right; by right; right
          | done ]))).
Defined.

(** C2, where the code departs from the claim. POST /api/tasks tests the
    title before it is sanitized: a title of three spaces, or the title
    ['<>'], passes the test, is sanitized to the empty string, and a task
    with the empty title is stored; only the empty title is rejected with
    the ValidationError failure. *)
Theorem blank_title_is_stored :
  (let '(r, d') :=
     post_api_tasks (sample_env "t2" true) (str "alice")
       {[ "title" := str "   " ]} fresh_disk in
   r = Success "Tarefa criada com sucesso!"
   ∧ length (read_tasks d') = 1%nat
   ∧ stored d' 0 "title" = str "")
  ∧ (let '(r, d') :=
       post_api_tasks (sample_env "t2" true) (str "alice")
         {[ "title" := str "<>" ]} fresh_disk in
     r = Success "Tarefa criada com sucesso!"
     ∧ length (read_tasks d') = 1%nat
     ∧ stored d' 0 "title" = str "")
  ∧ post_api_tasks (sample_env "t2" true) (str "alice")
      {[ "title" := str "" ]} fresh_disk = (Failure ValidationError, fresh_disk).
Proof. vm_compute. repeat split. Qed.

(** ** The further properties at concrete inputs *)

(** Nobody is found in an empty user file; the view of a stored user has
    no password. *)
Lemma getUserById_redacted_witness :
  let d := (createUser sample_digest (sample_env "u1" true)
              (str "ana") (str "ana@example.org") "s3cret!" fresh_disk).2 in
  getUserById (str "u1") fresh_disk = None
  ∧ ∀ view, getUserById (str "u1") d = Some view → view !! "password" = None.
Proof.
  intros d. destruct (getUserById_redacted (str "u1") fresh_disk) as [Hnone _].
  destruct (getUserById_redacted (str "u1") d) as [_ Hview].
  split.
  - apply Hnone. intros u Hu. inversion Hu.
  - intros view Hv. by destruct (Hview view Hv) as (_ & ? & _).
Defined.

(** Ana registers and logs in by username and by email. *)
Lemma createUser_then_authenticate_witness :
  let d' := (createUser sample_digest (sample_env "u1" true)
               (str "ana") (str "ana@example.org") "s3cret!" fresh_disk).2 in
  succeeded (authenticateUser sample_digest (str "ana") "s3cret!" d') = true
  ∧ succeeded (authenticateUser sample_digest (str "ana@example.org") "s3cret!" d') = true
  ∧ authenticateUser sample_digest (str "ana") "s3cret!" d'
    = Success {[ "id" := str "u1"; "username" := str "ana";
                 "email" := str "ana@example.org" ]}.
Proof.
  intros d'.
  destruct (createUser_then_authenticate sample_digest (sample_env "u1" true)
              (str "ana") (str "ana@example.org") "s3cret!" fresh_disk d' "u1"
              eq_refl) as (H1 & H2 & H3).
  split_and!; [exact (H1 eq_refl) | exact (H2 eq_refl) |].
  apply (H3 (str "ana")); [by left | reflexivity |]. intros u Hu. inversion Hu.
Defined.

(** The new user is found by her id. *)
Lemma createUser_then_getUserById_witness :
  let d' := (createUser sample_digest (sample_env "u1" true)
               (str "ana") (str "ana@example.org") "s3cret!" fresh_disk).2 in
  getUserById (str "u1") d'
  = Some {[ "id" := str "u1"; "username" := str "ana";
            "email" := str "ana@example.org" ]}.
Proof.
  intros d'.
  apply (createUser_then_getUserById sample_digest (sample_env "u1" true)
           (str "ana") (str "ana@example.org") "s3cret!" fresh_disk d' "u1").
  - intros u Hu. inversion Hu.
  - reflexivity.
Defined.

(** Bob adds a task; the listing of alice is not affected. *)
Lemma createTask_then_getTasks_witness :
  let e := sample_env "t2" true in
  let d' := (createTask e (str "bob") (str "Walk dog") undefined (str "low")
               disk_alice).2 in
  ∃ task,
    getTasks (str "bob") d' = getTasks (str "bob") disk_alice ++ [task]
    ∧ get "title" task = str "Walk dog"
    ∧ get "description" task = str ""
    ∧ get "priority" task = str "low"
    ∧ get "completed" task = boolean false
    ∧ getTasks (str "alice") d' = getTasks (str "alice") disk_alice.
Proof.
  intros e d'.
  destruct (createTask_then_getTasks e (str "bob") (str "Walk dog") undefined
              (str "low") disk_alice d' "t2" eq_refl eq_refl eq_refl)
    as (task & H1 & _ & _ & _ & H4 & H5 & H6 & H7 & H8).
  exists task. split_and!; first [done | by apply H8].
Defined.

(** Alice renames her task: the patch has a title only. *)
Lemma updateTask_merge_witness :
  let e := sample_env "x" true in
  let data : object := {[ "title" := str "Buy oat milk" ]} in
  let d' := (updateTask e (str "t1") (str "alice") data disk_alice).2 in
  ∃ i old new,
    first_match (str "t1") (str "alice") (read_tasks disk_alice) i old
    ∧ read_tasks d' = <[i := new]> (read_tasks disk_alice)
    ∧ new !! "updatedAt" = Some (JStr (date1 e))
    ∧ new !! "title" = Some (JStr "Buy oat milk")
    ∧ new !! "priority" = old !! "priority".
Proof.
  intros e data d'.
  destruct (updateTask_merge e (str "t1") (str "alice") data disk_alice d' eq_refl)
    as (i & old & new & H1 & H2 & H3 & H4).
  exists i, old, new.
  split_and!; first [done | by rewrite (H4 "title") | by rewrite (H4 "priority")].
Defined.

(** Alice completes her task. *)
Lemma toggleTaskCompletion_fields_witness :
  let e := sample_env "x" true in
  let d' := (toggleTaskCompletion e (str "t1") (str "alice") disk_alice).2 in
  ∃ i old new,
    first_match (str "t1") (str "alice") (read_tasks disk_alice) i old
    ∧ read_tasks d' = <[i := new]> (read_tasks disk_alice)
    ∧ new !! "completed" = Some (JBool true)
    ∧ new !! "title" = old !! "title".
Proof.
  intros e d'.
  destruct (toggleTaskCompletion_fields e (str "t1") (str "alice") disk_alice d'
              true eq_refl) as (i & old & new & H1 & H2 & _ & H4 & _ & H6).
  exists i, old, new. split_and!; first [done | by apply H6].
Defined.

(** Alice deletes her task; it cannot be toggled afterwards. *)
Lemma deleteTask_gone_witness :
  let e := sample_env "x" true in
  let d' := (deleteTask e (str "t1") (str "alice") disk_alice).2 in
  S (length (read_tasks d')) = length (read_tasks disk_alice)
  ∧ toggleTaskCompletion e (str "t1") (str "alice") d' = (Failure NotFound, d').
Proof.
  intros e d'.
  destruct (deleteTask_gone e (str "t1") (str "alice") disk_alice d')
    as (H1 & _ & _ & H4).
  - apply NoDup_singleton.
  - reflexivity.
  - split; [exact H1 |]. by destruct (H4 e (str "alice") ∅) as (_ & _ & ?).
Defined.

(** A second task with a new id keeps the ids unique. *)
Lemma unique_ids_preserved_witness :
  unique_ids (read_tasks (createTask (sample_env "t2" true) (str "bob")
                            (str "Walk dog") undefined undefined disk_alice).2).
Proof.
  destruct (unique_ids_preserved (sample_env "t2" true) disk_alice) as (H & _).
  - apply NoDup_singleton.
  - apply H. intros t Ht. apply list_elem_of_singleton in Ht as ->. discriminate.
Defined.

(** Alice adds a second task of high priority. *)
Lemma createTask_stats_witness :
  let e := sample_env "t2" true in
  let d' := (createTask e (str "alice") (str "Pay rent") undefined (str "high")
               disk_alice).2 in
  total (getTaskStats (str "alice") d') = total (getTaskStats (str "alice") disk_alice) + 1
  ∧ pending (getTaskStats (str "alice") d')
    = pending (getTaskStats (str "alice") disk_alice) + 1
  ∧ high (byPriority (getTaskStats (str "alice") d'))
    = high (byPriority (getTaskStats (str "alice") disk_alice)) + 1
  ∧ getTaskStats (str "bob") d' = getTaskStats (str "bob") disk_alice.
Proof.
  intros e d'.
  destruct (createTask_stats e (str "alice") (str "Pay rent") undefined (str "high")
              disk_alice d' "t2" eq_refl eq_refl eq_refl)
    as (H1 & _ & H3 & H4 & _ & _ & H7).
  split_and!; [exact H1 | exact H3 | exact H4 | by apply H7].
Defined.

(** Without a filter, and with an unknown one, all tasks are selected. *)
Lemma filteredTasks_counts_witness :
  filteredTasks undefined (getTasks (str "alice") disk_alice)
  = getTasks (str "alice") disk_alice
  ∧ filteredTasks (str "urgent") (getTasks (str "alice") disk_alice)
    = getTasks (str "alice") disk_alice
  ∧ len (filteredTasks (str "high") (getTasks (str "alice") disk_alice)) = 1.
Proof.
  destruct (filteredTasks_counts (str "alice") disk_alice)
    as (_ & _ & H3 & _ & _ & H6).
  split_and!.
  - by apply H6.
  - by apply H6.
  - rewrite H3. reflexivity.
Defined.

(** A clean string is kept; angle brackets and outer spaces are removed. *)
Lemma sanitizeInput_spec_witness :
  sanitizeInput (VNum (Fin 7)) = VNum (Fin 7)
  ∧ ∃ s', sanitizeInput (str "Buy milk") = str s' ∧ s' = "Buy milk".
Proof.
  split.
  - apply (proj1 (sanitizeInput_spec (VNum (Fin 7)))). discriminate.
  - destruct (proj2 (sanitizeInput_spec (str "Buy milk")) "Buy milk" eq_refl)
      as (s' & H1 & _ & _ & H4).
    exists s'. split; [exact H1 |]. apply H4.
    + unfold angle_free. simpl. repeat (apply Forall_cons; split; [done |]).
      apply Forall_nil_2.
    + split; intros c [= <-]; reflexivity.
Defined.

(** Bob's requests leave the task of alice alone; a request without a
    session is refused. *)
Lemma task_routes_isolation_witness :
  let e := sample_env "t2" true in
  others (str "bob")
    (read_tasks (post_api_tasks e (str "bob") {[ "title" := str "mine" ]}
                   disk_alice).2)
  = others (str "bob") (read_tasks disk_alice)
  ∧ others (str "bob")
      (read_tasks (put_api_tasks e (str "bob") "t1" {[ "title" := str "mine" ]}
                     disk_alice).2)
    = others (str "bob") (read_tasks disk_alice)
  ∧ others (str "bob") (read_tasks (delete_api_tasks e (str "bob") "t1" disk_alice).2)
    = others (str "bob") (read_tasks disk_alice)
  ∧ delete_api_tasks e undefined "t1" disk_alice
    = (Failure "Não autorizado", disk_alice).
Proof.
  intros e.
  destruct (task_routes_isolation e (str "bob") disk_alice) as (Hpost & Hput & Hdel & _).
  destruct (task_routes_isolation e undefined disk_alice) as (_ & _ & _ & _ & Hno).
  split_and!.
  - apply (Hpost eq_refl).
  - apply Hput.
  - apply Hdel.
  - by apply (Hno eq_refl).
Defined.

(** Alice edits her task through the route. *)
Lemma put_api_tasks_fields_witness :
  let e := sample_env "x" true in
  let body : object :=
    {[ "title" := str " Buy <b>oat</b> milk "; "priority" := str "low" ]} in
  let d' := (put_api_tasks e (str "alice") "t1" body disk_alice).2 in
  ∃ i old new,
    first_match (str "t1") (str "alice") (read_tasks disk_alice) i old
    ∧ read_tasks d' = <[i := new]> (read_tasks disk_alice)
    ∧ new !! "title" = Some (JStr "Buy boat/b milk")
    ∧ new !! "description" = Some (JStr "")
    ∧ new !! "priority" = Some (JStr "low")
    ∧ new !! "completed" = old !! "completed".
Proof.
  intros e body d'.
  destruct (put_api_tasks_fields e (str "alice") "t1" body disk_alice d'
              "Tarefa atualizada com sucesso!" eq_refl)
    as (i & old & new & H1 & H2 & H3 & H4 & H5 & _ & H7).
  exists i, old, new.
  split_and!; first [done | by apply H7].
Defined.

(** Alice adds a task through the route. *)
Lemma post_api_tasks_fields_witness :
  let e := sample_env "t2" true in
  let body : object := {[ "title" := str "<i>Pay rent</i>" ]} in
  let d' := (post_api_tasks e (str "alice") body disk_alice).2 in
  ∃ new,
    read_tasks d' = read_tasks disk_alice ++ [new]
    ∧ new !! "userId" = Some (JStr "alice")
    ∧ new !! "title" = Some (JStr "iPay rent/i")
    ∧ new !! "priority" = Some (JStr "medium")
    ∧ angle_free_value (prop "title" new).
Proof.
  intros e body d'.
  destruct (post_api_tasks_fields e (str "alice") body disk_alice d'
              "Tarefa criada com sucesso!" eq_refl)
    as (_ & _ & new & H1 & _ & H3 & H4 & _ & H6 & _ & H8 & _).
  exists new. split_and!; done.
Defined.

(** An address with two dots in the domain is accepted. *)
Lemma validateEmail_spec_witness :
  validateEmail "ana@mail.example.org" = true.
Proof.
  apply validateEmail_spec.
  exists (chars "ana"), (chars "mail"), (chars "example.org").
  split; [reflexivity |].
  split_and!; (split; [done |]); simpl;
    repeat (apply Forall_cons; split; [split; [reflexivity | discriminate] |]);
    apply Forall_nil_2.
Defined.

(** A long password with the four kinds of characters is 'Muito forte'. *)
Lemma calculatePasswordStrength_spec_witness :
  (calculatePasswordStrength "S3cret!pw").1 = "Muito forte"
  ∧ (calculatePasswordStrength "abc").1 ≠ "Muito fraca"
  ∧ (password_score "abc" ≤ password_score ("abc" +:+ "D4!"))%nat.
Proof.
  destruct (calculatePasswordStrength_spec "S3cret!pw") as (_ & _ & _ & H4 & _);
    [discriminate |].
  destruct (calculatePasswordStrength_spec "abc") as (_ & _ & H3 & _ & H5);
    [discriminate |].
  split_and!.
  - apply H4. split_and!; [simpl; lia | reflexivity ..].
  - exact H3.
  - apply H5.
Defined.

(** On an empty writable file system [init] creates the directory and the
    two files; a file that cannot be parsed is kept. *)
Lemma init_spec_witness :
  let empty := {| data_dir := false; users_json := Absent; tasks_json := Absent |} in
  let broken := {| data_dir := true; users_json := Unparsable; tasks_json := Absent |} in
  is_Some (init true empty)
  ∧ ∀ fs', init true broken = Some fs' →
      users_json fs' = Unparsable ∧ tasks_json fs' = Holds []
      ∧ init false fs' = Some fs'.
Proof.
  intros empty broken. split.
  - by apply (proj1 (proj2 (init_spec true empty))).
  - intros fs' Hinit.
    destruct (proj1 (init_spec true broken) fs' Hinit)
      as (_ & _ & _ & Hu & Ht & _ & _ & Hidem).
    split_and!; [exact Hu | exact Ht | apply Hidem].
Defined.

(** Ana registers through the route. *)
Lemma post_auth_register_success_witness :
  let e := sample_env "u1" true in
  let body : object :=
    {[ "username" := str " ana "; "email" := str "ana@example.org";
       "password" := str "s3cret!"; "confirmPassword" := str "s3cret!" ]} in
  let d' := (post_auth_register sample_digest sample_number e body fresh_disk).2 in
  ∃ email password,
    to_string (get "email" body) = Some email
    ∧ validateEmail email = true
    ∧ get "password" body = str password
    ∧ USERS_FILE d'
      = Some (read_users fresh_disk
              ++ [new_user_record sample_digest e (sanitizeInput (get "username" body))
                    (sanitizeInput (get "email" body)) password]).
Proof.
  intros e body d'.
  destruct (post_auth_register_success sample_digest sample_number e body fresh_disk d'
              "Usuário criado com sucesso! Faça login para continuar." eq_refl)
    as (email & password & _ & H2 & H3 & H4 & _ & _ & H7 & _).
  by exists email, password.
Defined.

(** Ana logs in with the username she typed when registering. *)
Lemma register_then_login_witness :
  let e := sample_env "u1" true in
  let body : object :=
    {[ "username" := str " ana "; "email" := str "ana@example.org";
       "password" := str "s3cret!"; "confirmPassword" := str "s3cret!" ]} in
  let d' := (post_auth_register sample_digest sample_number e body fresh_disk).2 in
  let login : object :=
    {[ "username" := get "username" body; "password" := get "password" body ]} in
  (post_auth_login sample_digest true login d').1 = Json (Success "/dashboard")
  ∧ (post_auth_login sample_digest true login d').2
    = Some (str "u1", str "ana").
Proof.
  intros e body d' login.
  destruct (register_then_login sample_digest sample_number e body fresh_disk d'
              "Usuário criado com sucesso! Faça login para continuar."
              (get "username" body) eq_refl (or_introl eq_refl) eq_refl) as [H1 H2].
  split; [exact H1 |]. apply H2. intros u password Hu. inversion Hu.
Defined.

(** The session of ana's login is that of a user with her credentials. *)
Lemma login_session_sound_witness :
  let e := sample_env "u1" true in
  let d := (createUser sample_digest e (str "ana") (str "ana@example.org")
              "s3cret!" fresh_disk).2 in
  let login : object := {[ "username" := str "ana"; "password" := str "s3cret!" ]} in
  ∃ password u,
    get "password" login = str password
    ∧ u ∈ read_users d
    ∧ credentials_of sample_digest (sanitizeInput (get "username" login)) password u
    ∧ str "u1" = prop "id" u.
Proof.
  intros e d login.
  destruct (login_session_sound sample_digest true login d
              (Json (Success "/dashboard")) (str "u1") (str "ana") eq_refl)
    as (password & u & H1 & H2 & H3 & H4 & _).
  by exists password, u.
Defined.

(** A registration whose password is a number is not carried out. *)
Lemma post_auth_register_failure_witness :
  let body : object :=
    {[ "username" := str "ana"; "email" := str "ana@example.org";
       "password" := VNum (Fin 1234567); "confirmPassword" := VNum (Fin 1234567) ]} in
  post_auth_register sample_digest sample_number (sample_env "u1" true) body fresh_disk
  = (InternalError, fresh_disk).
Proof.
  intros body.
  pose proof (post_auth_register_failure sample_digest sample_number
                (sample_env "u1" true) body fresh_disk) as H.
  destruct (post_auth_register _ _ _ _ _) as [r d'] eqn:Hreg.
  destruct H as [_ H]. destruct H as [_ ->]; [intros password; discriminate |].
  revert Hreg. vm_compute. by intros [= <-].
Defined.
